(** * String analyzer service: property engine, query translator, filter check

    A shallow embedding of [app/main.py]: [compute_properties],
    [parse_nl_query] and [list_strings] with its row check, with the
    statements the specification makes about them; then [nl_filter],
    [create_string], [get_string] and [delete_string] over the table of
    rows, and the table of routes, with further properties of the code.

    Modelling choices.
    - A Python [str] is a list of characters; a character is a code point in
      U+0000..U+00FF (the type [ascii]), on which [str.lower], [str.isspace],
      the class [\d] and the class [[a-z]] are written out as CPython defines
      them on that range.  Iterating a [str] yields one-character strings.
    - A Python [int] is a [Z]; [int] on a string of more than 4300 digits
      raises [ValueError], the limit the interpreter starts with.
    - A [dict] is a [gmap]; the [Dict[str, Any]] built by the translator holds
      tagged values ([pyval]).
    - [raise] is the left injection of a sum; the exceptions are the ones the
      source raises.
    - [re.search] is a backtracking matcher over the fragment of the regular
      expression syntax the source uses, alternatives tried in priority
      order, the first success being the match.
    - The table [strings] is the list of its rows; a handler takes the table
      and returns the table it leaves.  A commit that would break the
      primary key or the [unique] constraint fails. *)

From Stdlib Require Import ZArith Ascii String List Lia Bool DecimalString.
From stdpp Require Import base option list gmap strings fin_maps fin_sets.

Open Scope Z_scope.

(** ** Strings *)

Abbreviation str := (list ascii).

(** A string literal of the source. *)
Definition lit (s : string) : str := list_ascii_of_string s.

Definition ord (c : ascii) : Z := Z.of_N (N_of_ascii c).

Definition chr (n : Z) : ascii := ascii_of_N (Z.to_N n).

(** [str.isspace] on one character: TAB..CR, FS..US, SPACE, NEL, NBSP. *)
Definition isspace (c : ascii) : bool :=
  let n := ord c in
  ((9 <=? n) && (n <=? 13)) || ((28 <=? n) && (n <=? 32))
  || (n =? 133) || (n =? 160).

(** The class [\d]: the decimal digits. *)
Definition isdigit (c : ascii) : bool :=
  let n := ord c in (48 <=? n) && (n <=? 57).

(** The class [[a-z]]. *)
Definition is_a_z (c : ascii) : bool :=
  let n := ord c in (97 <=? n) && (n <=? 122).

(** [str.lower] on one character: A..Z and the upper-case Latin-1 letters
    (U+00C0..U+00DE without the multiplication sign) move up by 32. *)
Definition lower_char (c : ascii) : ascii :=
  let n := ord c in
  if ((65 <=? n) && (n <=? 90))
     || ((192 <=? n) && (n <=? 222) && negb (n =? 215))
  then chr (n + 32) else c.

Definition lower (s : str) : str := map lower_char s.

(** [s[::-1]] *)
Definition reversed (s : str) : str := rev s.

(** [a == b] on strings. *)
Definition str_eqb (a b : str) : bool := bool_decide (a = b).

(** [s.lstrip()], [s.rstrip()] and [s.strip()] without argument. *)
Fixpoint lstrip (s : str) : str :=
  match s with
  | c :: s' => if isspace c then lstrip s' else s
  | [] => []
  end.

Definition rstrip (s : str) : str := rev (lstrip (rev s)).

Definition strip (s : str) : str := rstrip (lstrip s).

(** [s.split()] without argument: the maximal runs of characters that are not
    white space, in order; [cur] holds the run being read, last character
    first. *)
Fixpoint split_from (cur : str) (s : str) : list str :=
  match s with
  | [] => match cur with [] => [] | _ => [rev cur] end
  | c :: s' =>
      if isspace c
      then match cur with
           | [] => split_from [] s'
           | _ => rev cur :: split_from [] s'
           end
      else split_from (c :: cur) s'
  end.

Definition split (s : str) : list str := split_from [] s.

(** [for ch in s]: the one-character strings of [s]. *)
Definition chars (s : str) : list str := map (fun c => [c]) s.

(** [len(x)] *)
Definition len {A} (l : list A) : Z := Z.of_nat (length l).

(** [sub in s] on strings. *)
Fixpoint str_in (sub s : str) : bool :=
  if bool_decide (sub `prefix_of` s) then true
  else match s with
       | [] => false
       | _ :: s' => str_in sub s'
       end.

(** The number a string of decimal digits writes, most significant digit
    first. *)
Definition int_value (s : str) : Z :=
  fold_left (fun acc c => 10 * acc + (ord c - 48)) s 0.

(** ** The property engine *)

Record PropertiesModel := {
  length_ : Z;
  is_palindrome : bool;
  unique_characters : Z;
  word_count : Z;
  sha256_hash : str;
  character_frequency_map : gmap str Z
}.

(** [d.get(k, 0)] *)
Definition get0 (d : gmap str Z) (k : str) : Z := default 0 (d !! k).

(** The body of the loop [for ch in v: freq[ch] = freq.get(ch, 0) + 1]. *)
Definition count_char (freq : gmap str Z) (ch : str) : gmap str Z :=
  <[ch := get0 freq ch + 1]> freq.

Section PropertyEngine.

(** [hashlib.sha256(v.encode("utf-8")).hexdigest()], left abstract. *)
Variable sha256_hexdigest : str -> str.

Definition compute_properties (value : str) : PropertiesModel :=
  let v := value in
  let length := len v in
  let is_palindrome := str_eqb (lower v) (reversed (lower v)) in
  let unique_characters := Z.of_nat (size (list_to_set (chars v) : gset str)) in
  let word_count := if str_eqb (strip v) [] then 0 else len (split v) in
  let sha := sha256_hexdigest v in
  let freq := fold_left count_char (chars v) ∅ in
  {| length_ := length;
     is_palindrome := is_palindrome;
     unique_characters := unique_characters;
     word_count := word_count;
     sha256_hash := sha;
     character_frequency_map := freq |}.

End PropertyEngine.

(** ** Regular expressions

    The fragment of [re] syntax the translator uses: literal text, a
    character class, [c+] on a class, [a|b], [a?], concatenation and one
    capturing group. *)

Inductive regex :=
| Lit (w : str)
| Cls (p : ascii -> bool)
| Plus (p : ascii -> bool)
| Alt (r1 r2 : regex)
| Opt (r : regex)
| Cat (r1 r2 : regex)
| Grp (r : regex).

(** One way of matching at a position: the text consumed, what is left
    behind it, and the text of group 1 if the group took part. *)
Definition path : Type := str * str * option str.

(** [c+], greedy: the longest run first, then shorter ones. *)
Fixpoint plus_cls (p : ascii -> bool) (s : str) : list (str * str) :=
  match s with
  | c :: s' =>
      if p c
      then map (fun wt => (c :: fst wt, snd wt)) (plus_cls p s') ++ [([c], s')]
      else []
  | [] => []
  end.

(** Every way [r] matches a prefix of [s], in the order backtracking tries
    them. *)
Fixpoint rmatch (r : regex) (s : str) : list path :=
  match r with
  | Lit w =>
      if bool_decide (w `prefix_of` s)
      then [(w, drop (length w) s, None)] else []
  | Cls p =>
      match s with
      | c :: s' => if p c then [([c], s', None)] else []
      | [] => []
      end
  | Plus p => map (fun wt => (fst wt, snd wt, None)) (plus_cls p s)
  | Alt r1 r2 => rmatch r1 s ++ rmatch r2 s
  | Opt r => rmatch r s ++ [([], s, None)]
  | Cat r1 r2 =>
      flat_map
        (fun p1 : path =>
           let '(w1, t1, g1) := p1 in
           map (fun p2 : path =>
                  let '(w2, t2, g2) := p2 in
                  (w1 ++ w2, t2, match g2 with Some _ => g2 | None => g1 end))
               (rmatch r2 t1))
        (rmatch r1 s)
  | Grp r => map (fun p1 : path => let '(w, t, _) := p1 in (w, t, Some w))
                 (rmatch r s)
  end.

(** A match object, reduced to what the translator reads from it. *)
Record Match := { group1 : option str }.

(** [re.search(r, s)]: the first position, from the left, at which [r]
    matches, with the first way of matching there; [None] if there is none. *)
Fixpoint re_search (r : regex) (s : str) : option Match :=
  match rmatch r s with
  | (_, _, g) :: _ => Some {| group1 := g |}
  | [] =>
      match s with
      | [] => None
      | _ :: s' => re_search r s'
      end
  end.

(** [m.group(1)].  In both patterns that have a group it stands outside every
    optional part, so it takes part in every match. *)
Definition group (m : Match) : str := default [] (group1 m).

(** [r"(single|one) word"] *)
Definition re_single_word : regex :=
  Cat (Grp (Alt (Lit (lit "single")) (Lit (lit "one")))) (Lit (lit " word")).

(** [r"longer than (\d+)"] *)
Definition re_longer_than : regex :=
  Cat (Lit (lit "longer than ")) (Grp (Plus isdigit)).

(** [r"contain(?:ing|s)? (?:the )?letter ([a-z])"] *)
Definition re_letter : regex :=
  Cat (Lit (lit "contain"))
   (Cat (Opt (Alt (Lit (lit "ing")) (Lit (lit "s"))))
    (Cat (Lit (lit " "))
     (Cat (Opt (Lit (lit "the ")))
      (Cat (Lit (lit "letter ")) (Grp (Cls is_a_z)))))).

(** [r"first vowel"] *)
Definition re_first_vowel : regex := Lit (lit "first vowel").

(** ** Values, exceptions *)

Inductive pyval :=
| VInt (n : Z)
| VBool (b : bool)
| VStr (s : str).

Inductive exn :=
| ValueError (msg : str)
| TypeError
| HTTPException (status_code : Z) (detail : str).

Definition result (A : Type) : Type := (exn + A)%type.

Definition raise {A} (e : exn) : result A := inl e.

Definition ret {A} (a : A) : result A := inr a.

Definition bind {A B} (k : A -> result B) (m : result A) : result B :=
  match m with
  | inl e => inl e
  | inr a => k a
  end.

#[global] Instance result_ret : MRet result := @ret.
#[global] Instance result_bind : MBind result := @bind.

(** The two failures of the translator, by their messages. *)
Definition ConflictError : exn :=
  ValueError (lit "Query parsed but resulted in conflicting filters").

Definition ParseError : exn :=
  ValueError (lit "Unable to parse natural language query").

(** The most digits [int] converts ([sys.get_int_max_str_digits()], which
    the service leaves at the value the interpreter starts with). *)
Definition int_max_str_digits : Z := 4300.

(** [str(n)] for a count [n]: its decimal digits. *)
Definition str_of_nat (n : nat) : str :=
  list_ascii_of_string (NilZero.string_of_uint (Nat.to_uint n)).

(** The message of the [ValueError] of [int] on a string of [n] digits,
    more than it converts. *)
Definition int_limit_message (n : nat) : str :=
  lit "Exceeds the limit (4300 digits) for integer string conversion: value has "
  ++ str_of_nat n
  ++ lit " digits; use sys.set_int_max_str_digits() to increase the limit".

(** [int(s)] on a string of decimal digits, as the translator calls it on the
    text matched by [\d+]: a [ValueError] beyond [int_max_str_digits] digits,
    leading zeros counted, and the number written otherwise. *)
Definition int (s : str) : result Z :=
  if int_max_str_digits <? len s
  then raise (ValueError (int_limit_message (length s)))
  else ret (int_value s).

(** [a > b] on strings: by code point, a proper prefix being smaller. *)
Fixpoint str_gtb (a b : str) : bool :=
  match a, b with
  | [], _ => false
  | _ :: _, [] => true
  | x :: a', y :: b' =>
      if ord x >? ord y then true
      else if ord x <? ord y then false
      else str_gtb a' b'
  end.

(** [a > b] on values: numbers compare as numbers ([bool] is a kind of
    [int]), strings as strings, and a string against a number is a
    [TypeError]. *)
Definition py_gt (a b : pyval) : result bool :=
  match a, b with
  | VStr x, VStr y => ret (str_gtb x y)
  | VStr _, _ | _, VStr _ => raise TypeError
  | VInt x, VInt y => ret (x >? y)
  | VInt x, VBool y => ret (x >? Z.b2z y)
  | VBool x, VInt y => ret (Z.b2z x >? y)
  | VBool x, VBool y => ret (Z.b2z x >? Z.b2z y)
  end.

(** ** The query translator *)

(** The five rules of [parse_nl_query], on the lower-cased query, each one
    writing into [parsed] in turn; the second one ends the call when [int]
    raises. *)
Definition apply_rules (q_lower : str) : result (gmap string pyval) :=
  let parsed : gmap string pyval := ∅ in
  let parsed :=
    match re_search re_single_word q_lower with
    | Some _ => <["word_count" := VInt 1]> parsed
    | None => parsed
    end in
  let m := re_search re_longer_than q_lower in
  parsed ←
    match m with
    | Some m =>
        n ← int (group m);
        ret (<["min_length" := VInt (n + 1)]> parsed)
    | None => ret parsed
    end;
  let parsed :=
    if str_in (lit "palindrom") q_lower
    then <["is_palindrome" := VBool true]> parsed
    else parsed in
  let m := re_search re_letter q_lower in
  let parsed :=
    match m with
    | Some m => <["contains_character" := VStr (group m)]> parsed
    | None => parsed
    end in
  let parsed :=
    match re_search re_first_vowel q_lower with
    | Some _ => <["contains_character" := VStr (lit "a")]> parsed
    | None => parsed
    end in
  ret parsed.

(** The two checks that end [parse_nl_query]. *)
Definition check_parsed (parsed : gmap string pyval)
  : result (gmap string pyval) :=
  match parsed !! "min_length", parsed !! "max_length" with
  | Some lo, Some hi =>
      gt ← py_gt lo hi;
      if gt : bool then raise ConflictError else ret tt
  | _, _ => ret tt
  end;;
  (if bool_decide (parsed = ∅) then raise ParseError else ret tt);;
  ret parsed.

Definition parse_nl_query (q : str) : result (gmap string pyval) :=
  let q_lower := lower q in
  parsed ← apply_rules q_lower;
  check_parsed parsed.

(** ** Listing with filters *)

(** The check [list_strings] makes on the properties of one row: [ok] starts
    true and each filter that is given may clear it. *)
Definition row_ok (is_palindrome : option bool)
    (min_length max_length word_count : option Z)
    (contains_character : option str) (props : PropertiesModel) : bool :=
  let '{| length_ := props_length;
          is_palindrome := props_is_palindrome;
          word_count := props_word_count;
          character_frequency_map := props_character_frequency_map |} := props in
  let ok := true in
  let ok :=
    match is_palindrome with
    | Some is_palindrome =>
        if negb (eqb props_is_palindrome is_palindrome) then false else ok
    | None => ok
    end in
  let ok :=
    match min_length with
    | Some min_length => if props_length <? min_length then false else ok
    | None => ok
    end in
  let ok :=
    match max_length with
    | Some max_length => if props_length >? max_length then false else ok
    | None => ok
    end in
  let ok :=
    match word_count with
    | Some word_count =>
        if negb (props_word_count =? word_count) then false else ok
    | None => ok
    end in
  let ok :=
    match contains_character with
    | Some contains_character =>
        let char_freq := props_character_frequency_map in
        if get0 char_freq contains_character =? 0 then false else ok
    | None => ok
    end in
  ok.

(** The [filters_applied] dictionary of the answer. *)
Definition filters_applied_of (is_palindrome : option bool)
    (min_length max_length word_count : option Z)
    (contains_character : option str) : gmap string pyval :=
  let filters_applied : gmap string pyval := ∅ in
  let filters_applied :=
    match is_palindrome with
    | Some b => <["is_palindrome" := VBool b]> filters_applied
    | None => filters_applied
    end in
  let filters_applied :=
    match min_length with
    | Some n => <["min_length" := VInt n]> filters_applied
    | None => filters_applied
    end in
  let filters_applied :=
    match max_length with
    | Some n => <["max_length" := VInt n]> filters_applied
    | None => filters_applied
    end in
  let filters_applied :=
    match word_count with
    | Some n => <["word_count" := VInt n]> filters_applied
    | None => filters_applied
    end in
  let filters_applied :=
    match contains_character with
    | Some c => <["contains_character" := VStr c]> filters_applied
    | None => filters_applied
    end in
  filters_applied.

Section Service.

(** The time stamp of a row and its rendering
    [created_at.replace(tzinfo=timezone.utc).isoformat()], left abstract. *)
Variable datetime : Type.
Variable isoformat_utc : datetime -> str.

(** A row of the table [strings]; [properties_json] is held decoded, the
    properties being written by [json.dumps] and read back by [json.loads]. *)
Record StringEntry := {
  id_ : str;
  value_ : str;
  properties_json : PropertiesModel;
  created_at : datetime
}.

Record StringResponse := {
  response_id : str;
  response_value : str;
  response_properties : PropertiesModel;
  response_created_at : str
}.

Definition row_to_response (row : StringEntry) : StringResponse :=
  let props := properties_json row in
  {| response_id := id_ row;
     response_value := value_ row;
     response_properties := props;
     response_created_at := isoformat_utc (created_at row) |}.

Record ListResponse := {
  data : list StringResponse;
  count : Z;
  filters_applied : gmap string pyval
}.

Definition list_strings (is_palindrome : option bool)
    (min_length max_length word_count : option Z)
    (contains_character : option str) (db : list StringEntry)
  : result ListResponse :=
  match min_length, max_length with
  | Some lo, Some hi =>
      if lo >? hi
      then raise (HTTPException 400
                    (lit "min_length cannot be greater than max_length"))
      else ret tt
  | _, _ => ret tt
  end;;
  let rows := db in
  let results :=
    map row_to_response
      (List.filter
         (fun r => row_ok is_palindrome min_length max_length word_count
                     contains_character (properties_json r))
         rows) in
  ret {| data := results;
         count := len results;
         filters_applied :=
           filters_applied_of is_palindrome min_length max_length word_count
             contains_character |}.

End Service.

Arguments list_strings {datetime} isoformat_utc _ _ _ _ _ _.
Arguments row_to_response {datetime} isoformat_utc _.
Arguments properties_json {datetime} _.

Arguments id_ {datetime} _.
Arguments value_ {datetime} _.
Arguments created_at {datetime} _.
Arguments Build_StringEntry {datetime} _ _ _ _.

(** ** The handlers over the table *)

(** What a handler can end with besides its answer: an exception it raises
    itself, or the [IntegrityError] of a commit that breaks the primary key
    on [id] or the [unique] constraint on [value]. *)
Inductive failure :=
| Raised (e : exn)
| IntegrityError.

(** [str(e)] *)
Definition exn_str (e : exn) : str :=
  match e with
  | ValueError msg => msg
  | TypeError => []
  | HTTPException _ detail => detail
  end.

(** [parsed.get(k)] read at the type the parameter of [list_strings]
    expects; the translator writes no value of another type. *)
Definition get_bool (parsed : gmap string pyval) (k : string) : option bool :=
  match parsed !! k with
  | Some (VBool b) => Some b
  | _ => None
  end.

Definition get_int (parsed : gmap string pyval) (k : string) : option Z :=
  match parsed !! k with
  | Some (VInt n) => Some n
  | _ => None
  end.

Definition get_str (parsed : gmap string pyval) (k : string) : option str :=
  match parsed !! k with
  | Some (VStr s) => Some s
  | _ => None
  end.

(** The answer of [nl_filter]: the answer of [list_strings] with the key
    [interpreted_query] added. *)
Record NLResponse := {
  nl_result : ListResponse;
  interpreted_original : str;
  interpreted_parsed_filters : gmap string pyval
}.

Section Handlers.

Context {datetime : Type}.
Variable isoformat_utc : datetime -> str.
Variable sha256_hexdigest : str -> str.

Abbreviation table := (list (StringEntry datetime)).

(** [db.query(StringEntry).filter(StringEntry.value == v).first()] *)
Definition first_by_value (v : str) (db : table) : option (StringEntry datetime) :=
  find (fun r => bool_decide (value_ r = v)) db.

(** [db.query(StringEntry).filter(StringEntry.id == v).first()] *)
Definition first_by_id (v : str) (db : table) : option (StringEntry datetime) :=
  find (fun r => bool_decide (id_ r = v)) db.

(** [db.add(row); db.commit()]: the row is stored unless its [id] or its
    [value] is already in the table. *)
Definition add_commit (row : StringEntry datetime) (db : table) : option table :=
  if existsb (fun r => bool_decide (id_ r = id_ row)
                       || bool_decide (value_ r = value_ row)) db
  then None else Some (db ++ [row]).

(** [db.delete(row); db.commit()]: the row leaves the table, by its key. *)
Definition delete_commit (row : StringEntry datetime) (db : table) : table :=
  List.filter (fun r => negb (bool_decide (id_ r = id_ row))) db.

(** [create_string]; [now] is [datetime.now(timezone.utc)].  The request
    value is a [str] by its type. *)
Definition create_string (now : datetime) (req_value : str) (db : table)
  : failure + (table * StringResponse) :=
  let props := compute_properties sha256_hexdigest req_value in
  let sha := sha256_hash props in
  let existing := first_by_id sha db in
  match existing with
  | Some _ =>
      inl (Raised (HTTPException 409
                     (lit "String already exists in the system")))
  | None =>
      let row := {| id_ := sha;
                    value_ := req_value;
                    properties_json := props;
                    created_at := now |} in
      match add_commit row db with
      | None => inl IntegrityError
      | Some db' => inr (db', row_to_response isoformat_utc row)
      end
  end.

(** The row [get_string] and [delete_string] look for: by value first, then
    by id. *)
Definition lookup_row (string_value : str) (db : table)
  : option (StringEntry datetime) :=
  match first_by_value string_value db with
  | Some row => Some row
  | None => first_by_id string_value db
  end.

Definition get_string (string_value : str) (db : table)
  : result StringResponse :=
  match lookup_row string_value db with
  | None =>
      raise (HTTPException 404 (lit "String does not exist in the system"))
  | Some row => ret (row_to_response isoformat_utc row)
  end.

Definition delete_string (string_value : str) (db : table) : result table :=
  match lookup_row string_value db with
  | None =>
      raise (HTTPException 404 (lit "String does not exist in the system"))
  | Some row => ret (delete_commit row db)
  end.

(** [nl_filter]: a [ValueError] of the translator becomes a 422 when its
    message holds "conflicting" and a 400 otherwise; any other exception
    passes through. *)
Definition nl_filter (query : str) (db : table) : result NLResponse :=
  match parse_nl_query query with
  | inl (ValueError msg) =>
      let e := ValueError msg in
      if str_in (lit "conflicting") (lower (exn_str e))
      then raise (HTTPException 422 (exn_str e))
      else raise (HTTPException 400 (exn_str e))
  | inl e => raise e
  | inr parsed =>
      result ←
        list_strings isoformat_utc
          (get_bool parsed "is_palindrome")
          (get_int parsed "min_length")
          (get_int parsed "max_length")
          (get_int parsed "word_count")
          (get_str parsed "contains_character")
          db;
      ret {| nl_result := result;
             interpreted_original := query;
             interpreted_parsed_filters := parsed |}
  end.

End Handlers.

(** ** The routes

    The table of routes, in the order the decorators register them.  A
    request goes to the first route whose method is the method of the
    request and whose path matches the whole path of the request; a
    parameter such as [{string_value}] matches one or more characters other
    than the slash. *)

Inductive http_method := GET | POST | PUT | PATCH | DELETE | HEAD | OPTIONS.

#[global] Instance http_method_eq_dec : EqDecision http_method.
Proof. solve_decision. Defined.

Inductive endpoint :=
| ep_create_string
| ep_get_string
| ep_list_strings
| ep_nl_filter
| ep_delete_string
| ep_root.

Definition not_slash (c : ascii) : bool := negb (bool_decide (c = "/"%char)).

(** [{string_value}] *)
Definition path_param : regex := Grp (Plus not_slash).

Definition routes : list (http_method * regex * endpoint) :=
  [ (POST, Lit (lit "/strings"), ep_create_string);
    (GET, Cat (Lit (lit "/strings/")) path_param, ep_get_string);
    (GET, Lit (lit "/strings"), ep_list_strings);
    (GET, Lit (lit "/strings/filter-by-natural-language"), ep_nl_filter);
    (DELETE, Cat (Lit (lit "/strings/")) path_param, ep_delete_string);
    (GET, Lit (lit "/"), ep_root) ].

(** The pattern matches the whole of [p]; the answer is the parameter, if
    the pattern has one. *)
Definition full_match (r : regex) (p : str) : option (option str) :=
  match find (fun x : path => bool_decide (x.1.2 = [])) (rmatch r p) with
  | Some (_, _, g) => Some g
  | None => None
  end.

Fixpoint dispatch_in (rs : list (http_method * regex * endpoint))
    (m : http_method) (p : str) : option (endpoint * option str) :=
  match rs with
  | [] => None
  | (m', r, ep) :: rs' =>
      match (if bool_decide (m' = m) then full_match r p else None) with
      | Some g => Some (ep, g)
      | None => dispatch_in rs' m p
      end
  end.

(** The endpoint a request reaches, with its path parameter. *)
Definition dispatch (m : http_method) (p : str)
  : option (endpoint * option str) :=
  dispatch_in routes m p.

(** ** The vocabulary of the specification *)

(** [sub] occurs in [s]. *)
Definition contains (sub s : str) : Prop :=
  ∃ pre post, s = pre ++ sub ++ post.

(** A run of white space, possibly empty. *)
Definition blank (w : str) : Prop := Forall (fun c => isspace c = true) w.

(** A token: at least one character, none of them white space. *)
Definition token (t : str) : Prop :=
  t ≠ [] ∧ Forall (fun c => isspace c = false) t.

(** What may follow a token: the end of the text or white space. *)
Definition token_ends (s : str) : Prop :=
  match s with
  | [] => True
  | c :: _ => isspace c = true
  end.

(** [tokenized s ts]: splitting [s] on runs of white space gives the tokens
    [ts], in order. *)
Inductive tokenized : str → list str → Prop :=
| tokenized_blank w : blank w → tokenized w []
| tokenized_token w t s ts :
    blank w → token t → token_ends s → tokenized s ts →
    tokenized (w ++ t ++ s) (t :: ts).

(** A decimal number: at least one character, all of them digits. *)
Definition digits (ds : str) : Prop :=
  ds ≠ [] ∧ Forall (fun c => isdigit c = true) ds.

(** The value of a decimal number read from its last digit [rs] upwards. *)
Fixpoint decimal_rev (rs : str) : Z :=
  match rs with
  | [] => 0
  | d :: rs' => (ord d - 48) + 10 * decimal_rev rs'
  end.

Definition decimal (ds : str) : Z := decimal_rev (rev ds).

(** The number does not go on into [s]. *)
Definition number_ends (s : str) : Prop :=
  match s with
  | [] => True
  | c :: _ => isdigit c = false
  end.

(** Behind [pre], the text [s] reads "longer than " and the decimal number
    written [ds]. *)
Definition longer_than_at (pre s ds : str) : Prop :=
  ∃ post,
    s = pre ++ lit "longer than " ++ ds ++ post
    ∧ digits ds ∧ number_ends post.

(** [s] contains "longer than " followed by the decimal number [N]. *)
Definition longer_than (s : str) (N : Z) : Prop :=
  ∃ pre ds, longer_than_at pre s ds ∧ N = decimal ds.

(** No "longer than " followed by a digit starts in [s] before the end of
    [pre]. *)
Definition first_longer_than (pre s : str) : Prop :=
  ∀ pre' d post',
    s = pre' ++ lit "longer than " ++ d :: post' → isdigit d = true →
    (length pre <= length pre')%nat.

(** The words a regular expression matches, groups set aside. *)
Fixpoint lang (r : regex) (w : str) : Prop :=
  match r with
  | Lit v => w = v
  | Cls p => ∃ c, w = [c] ∧ p c = true
  | Plus p => w ≠ [] ∧ Forall (fun c => p c = true) w
  | Alt r1 r2 => lang r1 w ∨ lang r2 w
  | Opt r => lang r w ∨ w = []
  | Cat r1 r2 => ∃ w1 w2, w = w1 ++ w2 ∧ lang r1 w1 ∧ lang r2 w2
  | Grp r => lang r w
  end.

(** [r] matches at the very start of [s]. *)
Definition matches_here (r : regex) (s : str) : Prop :=
  ∃ w t, s = w ++ t ∧ lang r w.

(** A group that closes the pattern takes part in every match. *)
Definition group_always (r : regex) : Prop :=
  ∀ s w t g, In (w, t, g) (rmatch r s) → is_Some g.

(** The number behind the first "longer than " of [s] has more than 4300
    digits. *)
Definition number_too_long (s : str) : Prop :=
  ∃ pre ds,
    longer_than_at pre s ds ∧ first_longer_than pre s ∧ 4300 < len ds.

(** "Python" [c * n]: a string of [n] times the character [c]. *)
Definition times (c : ascii) (n : Z) : str := replicate (Z.to_nat n) c.

(** A number of 4301 digits. *)
Definition long_number : str := times "9" 4301.

(** The word [w] stands in [s] as a word of its own, no letter before it,
    and " word" comes right behind it. *)
Definition word_start (pre : str) : Prop :=
  match rev pre with
  | [] => True
  | c :: _ => is_a_z c = false
  end.

Definition word_then_word (w s : str) : Prop :=
  ∃ pre post, s = pre ++ w ++ lit " word" ++ post ∧ word_start pre.

(** Both bounds are present and the lower one is the greater. *)
Definition conflicting (parsed : gmap string pyval) : Prop :=
  ∃ lo hi,
    parsed !! "min_length" = Some (VInt lo)
    ∧ parsed !! "max_length" = Some (VInt hi) ∧ lo > hi.

(** What [list_strings] raises on such bounds. *)
Definition BoundsError : exn :=
  HTTPException 400 (lit "min_length cannot be greater than max_length").

(** The counts of a frequency table are not negative. *)
Definition counts_nonneg (freq : gmap str Z) : Prop :=
  map_Forall (fun _ n => 0 <= n) freq.

(** The number of times [c] stands in [s]. *)
Definition occurrences (c : ascii) (s : str) : Z :=
  len (List.filter (fun x => bool_decide (x = c)) s).

(** The sum of the counts of a frequency table. *)
Definition total_count (freq : gmap str Z) : Z :=
  map_fold (fun _ n acc => n + acc) 0 freq.

(** What the translator can write: [word_count = 1], a [min_length] of at
    least 1, [is_palindrome = True], and for [contains_character] a string
    of one letter of a..z. *)
Definition filter_entry (k : string) (v : pyval) : Prop :=
  (k = "word_count" ∧ v = VInt 1)
  ∨ (k = "min_length" ∧ ∃ n, v = VInt n ∧ 1 <= n)
  ∨ (k = "is_palindrome" ∧ v = VBool true)
  ∨ (k = "contains_character" ∧ ∃ c, v = VStr [c] ∧ is_a_z c = true).

(** The wordings the "letter" rule accepts before the letter. *)
Definition letter_phrases : list str :=
  [lit "contain letter "; lit "contain the letter ";
   lit "containing letter "; lit "containing the letter ";
   lit "contains letter "; lit "contains the letter "].

(** Behind [pre], the text [s] reads one of these wordings and the letter
    [c] of a..z. *)
Definition letter_at (pre s : str) (c : ascii) : Prop :=
  ∃ w post, s = pre ++ w ++ c :: post ∧ w ∈ letter_phrases ∧ is_a_z c = true.

(** No such wording followed by a letter starts in [s] before the end of
    [pre]. *)
Definition first_letter_at (pre s : str) : Prop :=
  ∀ pre' c', letter_at pre' s c' → (length pre <= length pre')%nat.

(** At least one of the five rules of the translator finds what it looks
    for in the lower-cased query [s]. *)
Definition some_rule_matched (s : str) : Prop :=
  (contains (lit "single word") s ∨ contains (lit "one word") s)
  ∨ (∃ pre ds, longer_than_at pre s ds)
  ∨ contains (lit "palindrom") s
  ∨ (∃ pre c, letter_at pre s c)
  ∨ contains (lit "first vowel") s.

(** The constraints of the table: no two rows with the same [id], no two
    with the same [value]. *)
Definition keys_unique {datetime} (db : list (StringEntry datetime)) : Prop :=
  NoDup (map id_ db) ∧ NoDup (map value_ db).

(** Every row is as [create_string] writes it: its [id] is the hash of its
    [value] and its properties are those of its [value]. *)
Definition rows_genuine {datetime} (sha : str → str)
    (db : list (StringEntry datetime)) : Prop :=
  Forall (fun r => id_ r = sha (value_ r)
                   ∧ properties_json r = compute_properties sha (value_ r)) db.

(** A filter value [f'] asks no more than [f]: it is absent or the same. *)
Definition asks_less {A} (f' f : option A) : Prop := f' = None ∨ f' = f.

(** In every match of [r] group 1 takes part, with a text that has [P]. *)
Definition group_has (P : str → Prop) (r : regex) : Prop :=
  ∀ s w t g, In (w, t, g) (rmatch r s) → ∃ x, g = Some x ∧ P x.

(** In every match of [r] the text of group 1 ends the text consumed. *)
Definition group_last (r : regex) : Prop :=
  ∀ s w t g, In (w, t, g) (rmatch r s) → ∃ x, g = Some x ∧ x `suffix_of` w.

(** A table of two rows, "level" and "Hello world", with the identity in
    the place of the hash. *)
Definition sample_table : list (StringEntry unit) :=
  [ {| id_ := lit "level"; value_ := lit "level";
       properties_json := compute_properties (fun s => s) (lit "level");
       created_at := tt |};
    {| id_ := lit "Hello world"; value_ := lit "Hello world";
       properties_json := compute_properties (fun s => s) (lit "Hello world");
       created_at := tt |} ].

(** * Properties *)

(** ** Strings *)

Lemma str_in_contains sub s : str_in sub s = true ↔ contains sub s.
Proof.
  induction s as [|c s IH]; simpl.
  - case_bool_decide as Hp.
    + split; [intros _|done]. destruct Hp as [k Hk].
      exists [], k. exact Hk.
    + split; [done|]. intros (pre & post & E). destruct Hp.
      destruct pre; simpl in E.
      * by exists post.
      * done.
  - case_bool_decide as Hp.
    + split; [intros _|done]. destruct Hp as [k Hk].
      exists [], k. exact Hk.
    + rewrite IH. split.
      * intros (pre & post & ->). by exists (c :: pre), post.
      * intros (pre & post & E). destruct pre as [|c' pre]; simpl in E.
        -- destruct Hp. by exists post.
        -- injection E as -> ->. by exists pre, post.
Qed.

Lemma int_app ds d :
  int_value (ds ++ [d]) = 10 * int_value ds + (ord d - 48).
Proof. unfold int_value. by rewrite fold_left_app. Qed.

Lemma int_decimal ds : int_value ds = decimal ds.
Proof.
  unfold decimal. induction ds as [|d ds IH] using rev_ind; [done|].
  rewrite int_app, rev_app_distr. simpl. rewrite IH. lia.
Qed.

(** ** The matcher *)

Lemma plus_cls_sound p s w t :
  In (w, t) (plus_cls p s) →
  s = w ++ t ∧ w ≠ [] ∧ Forall (fun c => p c = true) w.
Proof.
  revert w t. induction s as [|c s IH]; simpl; [done|].
  intros w t. destruct (p c) eqn:Hc; [|done].
  rewrite in_app_iff, in_map_iff. intros [([w' t'] & E & Hin)|[E|[]]].
  - simpl in E. injection E as <- <-. destruct (IH _ _ Hin) as (-> & _ & Hall).
    split; [done|]. split; [done|]. by constructor.
  - injection E as <- <-. split; [done|]. split; [done|].
    by repeat constructor.
Qed.

Lemma plus_cls_complete p w t :
  w ≠ [] → Forall (fun c => p c = true) w → In (w, t) (plus_cls p (w ++ t)).
Proof.
  induction w as [|c w IH]; [done|]. intros _ Hall.
  apply Forall_cons in Hall as [Hc Hall]. simpl. rewrite Hc.
  apply in_app_iff. destruct w as [|c' w].
  - right. by left.
  - left. apply in_map_iff. exists (c' :: w, t). split; [done|].
    by apply IH.
Qed.

(** The first way [c+] matches takes the whole run. *)
Lemma plus_cls_greedy p w t :
  w ≠ [] → Forall (fun c => p c = true) w →
  match t with [] => True | c :: _ => p c = false end →
  ∃ rest, plus_cls p (w ++ t) = (w, t) :: rest.
Proof.
  intros Hne Hall Ht. induction w as [|c w IH]; [done|].
  apply Forall_cons in Hall as [Hc Hall]. simpl. rewrite Hc.
  destruct w as [|c' w].
  - simpl. destruct t as [|c' t]; simpl.
    + by eexists.
    + rewrite Ht. simpl. by eexists.
  - destruct IH as [rest IH]; [done|done|].
    rewrite IH. simpl. by eexists.
Qed.

Lemma rmatch_sound r s w t g :
  In (w, t, g) (rmatch r s) → s = w ++ t ∧ lang r w.
Proof.
  revert s w t g. induction r as [v|p|p|r1 IH1 r2 IH2|r IH|r1 IH1 r2 IH2|r IH];
    intros s w t g; simpl.
  - case_bool_decide as Hp; [|done]. intros [E|[]]. injection E as <- <- <-.
    destruct Hp as [k ->]. by rewrite drop_app_length.
  - destruct s as [|c s]; [done|]. destruct (p c) eqn:Hc; [|done].
    intros [E|[]]. injection E as <- <- <-. split; [done|]. by exists c.
  - rewrite in_map_iff. intros ([w' t'] & E & Hin). simpl in E.
    injection E as <- <- <-. by apply plus_cls_sound in Hin.
  - rewrite in_app_iff. intros [H|H].
    + apply IH1 in H as [-> ?]. auto.
    + apply IH2 in H as [-> ?]. auto.
  - rewrite in_app_iff. intros [H|[E|[]]].
    + apply IH in H as [-> ?]. auto.
    + injection E as <- <- <-. auto.
  - rewrite in_flat_map. intros ([[w1 t1] g1] & H1 & H2).
    apply in_map_iff in H2 as ([[w2 t2] g2] & E & H2). injection E as <- <- <-.
    apply IH1 in H1 as [-> L1]. apply IH2 in H2 as [-> L2].
    split; [by rewrite app_assoc|]. by exists w1, w2.
  - rewrite in_map_iff. intros ([[w' t'] g'] & E & H). injection E as <- <- <-.
    by apply IH in H.
Qed.

Lemma rmatch_complete r w t :
  lang r w → ∃ g, In (w, t, g) (rmatch r (w ++ t)).
Proof.
  revert w t. induction r as [v|p|p|r1 IH1 r2 IH2|r IH|r1 IH1 r2 IH2|r IH];
    intros w t; simpl.
  - intros ->. exists None. rewrite bool_decide_eq_true_2 by by exists t.
    rewrite drop_app_length. by left.
  - intros (c & -> & Hc). exists None. simpl. rewrite Hc. by left.
  - intros [Hne Hall]. exists None. apply in_map_iff. exists (w, t).
    split; [done|]. by apply plus_cls_complete.
  - intros [H|H].
    + destruct (IH1 _ t H) as [g Hg]. exists g. apply in_app_iff. auto.
    + destruct (IH2 _ t H) as [g Hg]. exists g. apply in_app_iff. auto.
  - intros [H| ->].
    + destruct (IH _ t H) as [g Hg]. exists g. apply in_app_iff. auto.
    + exists None. apply in_app_iff. right. by left.
  - intros (w1 & w2 & -> & L1 & L2).
    destruct (IH1 _ (w2 ++ t) L1) as [g1 H1].
    destruct (IH2 _ t L2) as [g2 H2].
    exists (match g2 with Some _ => g2 | None => g1 end).
    rewrite <- app_assoc. apply in_flat_map. exists (w1, w2 ++ t, g1).
    split; [done|]. apply in_map_iff. by exists (w2, t, g2).
  - intros H. destruct (IH _ t H) as [g Hg]. exists (Some w).
    apply in_map_iff. by exists (w, t, g).
Qed.

Lemma rmatch_nil r s : rmatch r s = [] ↔ ¬ matches_here r s.
Proof.
  split.
  - intros E (w & t & -> & L). destruct (rmatch_complete r w t L) as [g Hg].
    by rewrite E in Hg.
  - intros Hn. destruct (rmatch r s) as [|[[w t] g] l] eqn:E; [done|].
    destruct Hn. exists w, t. apply (rmatch_sound r s w t g). rewrite E.
    by left.
Qed.

(** [re.search] finds nothing exactly when [r] matches at no position. *)
Lemma re_search_None r s :
  re_search r s = None ↔ ∀ pre t, s = pre ++ t → ¬ matches_here r t.
Proof.
  induction s as [|c s IH]; simpl.
  - destruct (rmatch r []) as [|[[w t] g] l] eqn:E.
    + split; [|done]. intros _ pre t Hs.
      symmetry in Hs. apply app_eq_nil in Hs as [-> ->]. by apply rmatch_nil.
    + split; [done|]. intros H. specialize (H [] [] eq_refl).
      apply rmatch_nil in H. by rewrite E in H.
  - destruct (rmatch r (c :: s)) as [|[[w t] g] l] eqn:E.
    + rewrite IH. split.
      * intros H [|c' pre] t Hs; simpl in Hs.
        -- subst t. by apply rmatch_nil.
        -- injection Hs as <- ->. by eapply H.
      * intros H pre t ->. by apply (H (c :: pre)).
    + split; [done|]. intros H. specialize (H [] (c :: s) eq_refl).
      apply rmatch_nil in H. by rewrite E in H.
Qed.

Lemma re_search_Some r s :
  is_Some (re_search r s) ↔ ∃ pre w post, s = pre ++ w ++ post ∧ lang r w.
Proof.
  split.
  - induction s as [|c s IH]; simpl.
    + destruct (rmatch r []) as [|[[w t] g] l] eqn:E; [by intros [? ?]|].
      intros _. exists [], w, t. apply (rmatch_sound r [] w t g). rewrite E.
      by left.
    + destruct (rmatch r (c :: s)) as [|[[w t] g] l] eqn:E.
      * intros H. destruct (IH H) as (pre & w & post & -> & L).
        by exists (c :: pre), w, post.
      * intros _. exists [], w, t. apply (rmatch_sound r (c :: s) w t g).
        rewrite E. by left.
  - intros (pre & w & post & -> & L).
    destruct (re_search r (pre ++ w ++ post)) eqn:E; [done|].
    exfalso. rewrite re_search_None in E.
    apply (E pre (w ++ post) eq_refl). by exists w, post.
Qed.

(** [re.search] returns the first way of matching at the first position that
    has one. *)
Lemma re_search_first r pre t w t' g rest :
  (∀ a b, pre = a ++ b → b ≠ [] → ¬ matches_here r (b ++ t)) →
  rmatch r t = (w, t', g) :: rest →
  re_search r (pre ++ t) = Some {| group1 := g |}.
Proof.
  intros Hpre Ht. induction pre as [|c pre IH]; simpl.
  - destruct t; simpl; by rewrite Ht.
  - assert (rmatch r (c :: pre ++ t) = []) as ->.
    { apply rmatch_nil. by apply (Hpre [] (c :: pre)). }
    apply IH. intros a b -> Hb. by apply (Hpre (c :: a) b).
Qed.

Lemma re_search_In r s m :
  re_search r s = Some m → ∃ t w t', In (w, t', group1 m) (rmatch r t).
Proof.
  induction s as [|c s IH]; simpl.
  - destruct (rmatch r []) as [|[[w t'] g] l] eqn:E; [done|].
    intros [= <-]. exists [], w, t'. rewrite E. by left.
  - destruct (rmatch r (c :: s)) as [|[[w t'] g] l] eqn:E; [done|].
    intros [= <-]. exists (c :: s), w, t'. rewrite E. by left.
Qed.

Lemma group_always_Grp r : group_always (Grp r).
Proof.
  intros s w t g. simpl. rewrite in_map_iff.
  by intros ([[w' t'] g'] & [= <- <- <-] & _).
Qed.

Lemma group_always_Cat r1 r2 : group_always r2 → group_always (Cat r1 r2).
Proof.
  intros H2 s w t g. simpl. rewrite in_flat_map.
  intros ([[w1 t1] g1] & _ & Hin). apply in_map_iff in Hin.
  destruct Hin as ([[w2 t2] g2] & [= <- <- <-] & Hin).
  apply H2 in Hin as [x ->]. by exists x.
Qed.

Lemma group_longer_than s m :
  re_search re_longer_than s = Some m → is_Some (group1 m).
Proof.
  intros H. apply re_search_In in H as (t & w & t' & Hin).
  revert Hin. apply group_always_Cat, group_always_Grp.
Qed.

Lemma group_letter s m :
  re_search re_letter s = Some m → is_Some (group1 m).
Proof.
  intros H. apply re_search_In in H as (t & w & t' & Hin).
  revert Hin. do 5 apply group_always_Cat. apply group_always_Grp.
Qed.

(** ** The translator *)

Lemma int_ret s : len s <= 4300 → int s = ret (int_value s).
Proof.
  intros H. unfold int, int_max_str_digits.
  by destruct (Z.ltb_spec 4300 (len s)); [lia|].
Qed.

Lemma int_raise s :
  4300 < len s → int s = raise (ValueError (int_limit_message (length s))).
Proof.
  intros H. unfold int, int_max_str_digits.
  by destruct (Z.ltb_spec 4300 (len s)); [|lia].
Qed.

Lemma int_inv s n : int s = ret n → n = int_value s ∧ len s <= 4300.
Proof.
  unfold int, int_max_str_digits.
  destruct (Z.ltb_spec 4300 (len s)); [done|]. by intros [= <-].
Qed.

(** Reading a lookup off a [parsed] the rules returned. *)
Ltac by_rules H :=
  unfold apply_rules in H; cbv zeta in H;
  destruct (re_search re_longer_than _) as [?m|] eqn:?Em;
    [destruct (int (group _)) as [?e|?n] eqn:?Ei; [discriminate H|]|];
    injection H as <-; repeat case_match; simplify_map_eq; try done;
    try congruence.

Lemma apply_rules_word_count s d :
  apply_rules s = ret d →
  d !! "word_count"
  = match re_search re_single_word s with
    | Some _ => Some (VInt 1)
    | None => None
    end.
Proof. intros H. by_rules H. Qed.

Lemma apply_rules_min_length s d :
  apply_rules s = ret d →
  d !! "min_length"
  = (fun m => VInt (int_value (group m) + 1)) <$> re_search re_longer_than s.
Proof.
  intros H. unfold apply_rules in H. cbv zeta in H.
  destruct (re_search re_longer_than s) as [m|] eqn:Em.
  - destruct (int (group m)) as [e|n] eqn:Ei; [discriminate H|].
    assert (n = int_value (group m)) as ->.
    { by apply int_inv in Ei as [-> _]. }
    injection H as <-. repeat case_match; by simplify_map_eq.
  - injection H as <-. repeat case_match; by simplify_map_eq.
Qed.

Lemma apply_rules_is_palindrome s d :
  apply_rules s = ret d →
  d !! "is_palindrome"
  = if str_in (lit "palindrom") s then Some (VBool true) else None.
Proof. intros H. by_rules H. Qed.

Lemma apply_rules_contains_character s d :
  apply_rules s = ret d →
  d !! "contains_character"
  = match re_search re_first_vowel s with
    | Some _ => Some (VStr (lit "a"))
    | None => (fun m => VStr (group m)) <$> re_search re_letter s
    end.
Proof. intros H. by_rules H. Qed.

(** No rule writes [max_length]. *)
Lemma apply_rules_max_length s d :
  apply_rules s = ret d → d !! "max_length" = None.
Proof. intros H. by_rules H. Qed.

(** The rules write under four names only. *)
Lemma apply_rules_keys s d k :
  apply_rules s = ret d → is_Some (d !! k) →
  k ∈ ["is_palindrome"; "min_length"; "word_count"; "contains_character"].
Proof.
  intros H [v Hv]. rewrite !elem_of_cons.
  destruct (decide (k = "is_palindrome")); [tauto|].
  destruct (decide (k = "min_length")); [tauto|].
  destruct (decide (k = "word_count")); [tauto|].
  destruct (decide (k = "contains_character")); [tauto|].
  exfalso. revert v Hv. by_rules H.
Qed.

(** [parsed] stays empty exactly when no rule fired. *)
Lemma apply_rules_empty s d :
  apply_rules s = ret d →
  d = ∅
  ↔ re_search re_single_word s = None
    ∧ re_search re_longer_than s = None
    ∧ str_in (lit "palindrom") s = false
    ∧ re_search re_letter s = None
    ∧ re_search re_first_vowel s = None.
Proof.
  intros Hd. split.
  - intros ->.
    pose proof (apply_rules_word_count s ∅ Hd) as H1.
    pose proof (apply_rules_min_length s ∅ Hd) as H2.
    pose proof (apply_rules_is_palindrome s ∅ Hd) as H3.
    pose proof (apply_rules_contains_character s ∅ Hd) as H4.
    rewrite lookup_empty in H1, H2, H3, H4.
    destruct (re_search re_single_word s); [done|].
    destruct (re_search re_longer_than s); [done|].
    destruct (str_in (lit "palindrom") s); [done|].
    destruct (re_search re_first_vowel s); [done|].
    by destruct (re_search re_letter s).
  - intros (H1 & H2 & H3 & H4 & H5). revert Hd. unfold apply_rules.
    rewrite H1, H2, H3, H4, H5. by intros [= <-].
Qed.

(** The rules end in the [ValueError] of [int] exactly when the number the
    second rule found has more than 4300 digits. *)
Lemma apply_rules_raise s m :
  re_search re_longer_than s = Some m → 4300 < len (group m) →
  apply_rules s = raise (ValueError (int_limit_message (length (group m)))).
Proof.
  intros Hm Hl. unfold apply_rules. cbv zeta. by rewrite Hm, int_raise.
Qed.

Lemma apply_rules_ret s :
  (∀ m, re_search re_longer_than s = Some m → len (group m) <= 4300) →
  ∃ d, apply_rules s = ret d.
Proof.
  intros H. unfold apply_rules. cbv zeta.
  destruct (re_search re_longer_than s) as [m|]; [|by eexists].
  rewrite int_ret by by apply H. by eexists.
Qed.

(** The conflict test of the translator never fires, so on a [parsed] the
    rules returned the closing checks fail exactly when it is empty. *)
Lemma check_parsed_rules s d :
  apply_rules s = ret d →
  check_parsed d = if bool_decide (d = ∅) then raise ParseError else ret d.
Proof.
  intros Hd. unfold check_parsed. rewrite (apply_rules_max_length s d Hd).
  destruct (d !! "min_length"); by case_bool_decide.
Qed.

Lemma parse_nl_query_raise q m :
  re_search re_longer_than (lower q) = Some m → 4300 < len (group m) →
  parse_nl_query q
  = raise (ValueError (int_limit_message (length (group m)))).
Proof.
  intros Hm Hl. unfold parse_nl_query. cbv zeta.
  by rewrite (apply_rules_raise _ m Hm Hl).
Qed.

Lemma parse_nl_query_rules q d :
  apply_rules (lower q) = ret d →
  parse_nl_query q = if bool_decide (d = ∅) then raise ParseError else ret d.
Proof.
  intros Hd. unfold parse_nl_query. cbv zeta. rewrite Hd.
  apply (check_parsed_rules _ _ Hd).
Qed.

Lemma parse_nl_query_inv q d :
  parse_nl_query q = ret d → apply_rules (lower q) = ret d ∧ d ≠ ∅.
Proof.
  unfold parse_nl_query. cbv zeta.
  destruct (apply_rules (lower q)) as [e|d'] eqn:Hd; [done|].
  change (check_parsed d' = ret d → inr d' = ret d ∧ d ≠ ∅).
  rewrite (check_parsed_rules _ _ Hd). case_bool_decide; [done|].
  by intros [= <-].
Qed.

Lemma parse_nl_query_ret q d k v :
  apply_rules (lower q) = ret d → d !! k = Some v → parse_nl_query q = ret d.
Proof.
  intros Hd Hk. rewrite (parse_nl_query_rules q d Hd).
  case_bool_decide as E; [|done]. by rewrite E, lookup_empty in Hk.
Qed.

(** ** The property engine *)

Lemma lstrip_nil s : lstrip s = [] ↔ blank s.
Proof.
  unfold blank. induction s as [|c s IH]; simpl; [done|].
  destruct (isspace c) eqn:Hc.
  - rewrite IH, Forall_cons. tauto.
  - split; [done|]. rewrite Forall_cons. intros [? _]. congruence.
Qed.

Lemma blank_lstrip s : blank (lstrip s) ↔ blank s.
Proof.
  unfold blank. induction s as [|c s IH]; simpl; [done|].
  destruct (isspace c) eqn:Hc; [|done].
  rewrite IH, Forall_cons. tauto.
Qed.

(** Stripping leaves nothing exactly when the text is all white space. *)
Lemma strip_nil s : strip s = [] ↔ blank s.
Proof.
  unfold strip, rstrip. rewrite <- blank_lstrip. split.
  - intros E. apply (f_equal (@rev ascii)) in E. rewrite rev_involutive in E.
    simpl in E. apply lstrip_nil in E. unfold blank in *.
    apply Forall_rev in E. by rewrite rev_involutive in E.
  - intros E. apply Forall_rev, lstrip_nil in E. by rewrite E.
Qed.

Lemma split_from_blank w s : blank w → split_from [] (w ++ s) = split_from [] s.
Proof.
  induction 1 as [|c w Hc _ IH]; simpl; [done|]. by rewrite Hc.
Qed.

Lemma split_from_run t cur s :
  Forall (fun c => isspace c = false) t →
  split_from cur (t ++ s) = split_from (rev t ++ cur) s.
Proof.
  intros Ht. revert cur. induction Ht as [|c t Hc _ IH]; intros cur; simpl.
  - done.
  - by rewrite Hc, IH, <- app_assoc.
Qed.

Lemma split_from_emit cur s :
  cur ≠ [] → token_ends s → split_from cur s = rev cur :: split_from [] s.
Proof.
  intros Hcur Hs. destruct s as [|c s]; simpl in *.
  - by destruct cur.
  - rewrite Hs. by destruct cur.
Qed.

(** [split] returns the tokens of the text: they are unique. *)
Lemma tokenized_split s ts : tokenized s ts → split s = ts.
Proof.
  unfold split. induction 1 as [w Hw|w t s ts Hw [Hne Ht] Hs _ IH].
  - rewrite <- (app_nil_r w). by rewrite split_from_blank.
  - rewrite split_from_blank, split_from_run, app_nil_r by done.
    rewrite split_from_emit, rev_involutive, IH; [done| |done].
    intros E. apply Hne. apply (f_equal (@rev ascii)) in E.
    by rewrite rev_involutive in E.
Qed.

Lemma tokenized_space c s ts :
  isspace c = true → tokenized s ts → tokenized (c :: s) ts.
Proof.
  intros Hc [w Hw|w t s' ts' Hw Ht Hs Hts].
  - constructor. by constructor.
  - apply (tokenized_token (c :: w)); [by constructor|done..].
Qed.

Lemma split_from_tokenized s cur :
  Forall (fun c => isspace c = false) cur →
  tokenized (rev cur ++ s) (split_from cur s).
Proof.
  revert cur. induction s as [|c s IH]; intros cur Hcur; simpl.
  - destruct cur as [|c cur]; [by repeat constructor|].
    apply (tokenized_token [] (rev (c :: cur)) []);
      [constructor| |done|by repeat constructor].
    split; [|by apply Forall_rev].
    simpl. intros E. by apply app_eq_nil in E as [_ ?].
  - destruct (isspace c) eqn:Hc.
    + destruct cur as [|c' cur].
      * simpl. apply tokenized_space; [done|]. by apply (IH []).
      * apply (tokenized_token [] (rev (c' :: cur)) (c :: s));
          [constructor| |done|].
        -- split; [|by apply Forall_rev].
           simpl. intros E. by apply app_eq_nil in E as [_ ?].
        -- apply tokenized_space; [done|]. by apply (IH []).
    + specialize (IH (c :: cur)). simpl in IH. rewrite <- app_assoc in IH.
      apply IH. by constructor.
Qed.

(** Every text has a tokenization, the one [split] computes. *)
Lemma split_tokenized s : tokenized s (split s).
Proof. by apply (split_from_tokenized s []). Qed.

Lemma fold_count_char_nonneg l freq :
  counts_nonneg freq → counts_nonneg (fold_left count_char l freq).
Proof.
  revert freq. induction l as [|ch l IH]; intros freq Hf; simpl; [done|].
  apply IH. unfold count_char, counts_nonneg.
  apply map_Forall_insert_2; [|done].
  unfold get0. destruct (freq !! ch) as [n|] eqn:E; simpl; [|lia].
  apply Hf in E. simpl in E. lia.
Qed.

(** The frequency table of a computed record has no negative count. *)
Lemma compute_counts_nonneg sha s :
  counts_nonneg (character_frequency_map (compute_properties sha s)).
Proof. apply fold_count_char_nonneg, map_Forall_empty. Qed.

(** C4: for every string, [is_palindrome] of the computed record is true
    exactly when the lower-cased string equals its own reverse, nothing
    being stripped; "A" is a palindrome and "race a car" is not. *)
Theorem compute_is_palindrome sha :
  (∀ s, is_palindrome (compute_properties sha s) = true
        ↔ lower s = rev (lower s))
  ∧ is_palindrome (compute_properties sha (lit "A")) = true
  ∧ is_palindrome (compute_properties sha (lit "race a car")) = false.
Proof.
  split; [|by split].
  intros s. simpl. unfold str_eqb, reversed. apply bool_decide_eq_true.
Qed.

(** C5: for every string, [word_count] of the computed record is 0 when the
    stripped string is empty (so for the empty string and for a string of
    white space only), and otherwise the number of tokens that splitting the
    string on runs of white space gives. *)
Theorem compute_word_count sha s ts :
  tokenized s ts →
  (strip s = [] → word_count (compute_properties sha s) = 0)
  ∧ (strip s ≠ [] → word_count (compute_properties sha s) = len ts)
  ∧ (blank s → word_count (compute_properties sha s) = 0).
Proof.
  intros Hts. simpl. unfold str_eqb.
  split; [|split].
  - intros E. by rewrite bool_decide_eq_true_2.
  - intros E. rewrite bool_decide_eq_false_2 by done.
    by rewrite (tokenized_split s ts).
  - intros E. apply strip_nil in E. by rewrite bool_decide_eq_true_2.
Qed.

(** C9: for every string, [unique_characters] of the computed record is the
    number of distinct characters of the string, that is the length of any
    list without repetition that holds exactly its characters, upper and
    lower case, white space and punctuation told apart; "Aa" has 2. *)
Theorem compute_unique_characters sha :
  (∀ s l, NoDup l → (∀ c, c ∈ l ↔ c ∈ s) →
          unique_characters (compute_properties sha s) = len l)
  ∧ unique_characters (compute_properties sha (lit "Aa")) = 2.
Proof.
  split; [|done].
  intros s l Hnd Hl. simpl. unfold len. f_equal.
  assert ((list_to_set (chars s) : gset str) = list_to_set (chars l)) as ->.
  { apply set_eq. intros x. unfold chars.
    rewrite !elem_of_list_to_set, !list_elem_of_In, !in_map_iff.
    split; intros (c & E & Hc); exists c; split; try done;
      apply list_elem_of_In; apply Hl; by apply list_elem_of_In. }
  rewrite size_list_to_set.
  - unfold chars. by rewrite length_map.
  - assert (Inj (=) (=) (fun c : ascii => [c])) by (by intros ?? [=]).
    by apply (NoDup_fmap_2 (fun c : ascii => [c])).
Qed.

(** ** The row check *)

Lemma get0_nonneg freq ch : counts_nonneg freq → 0 <= get0 freq ch.
Proof.
  intros Hf. unfold get0. destruct (freq !! ch) as [n|] eqn:E; simpl; [|lia].
  by apply Hf in E.
Qed.

(** The row check is the conjunction of one test per filter. *)
Lemma row_ok_andb ip lo hi wc cc props :
  row_ok ip lo hi wc cc props
  = from_option (fun b => eqb (is_palindrome props) b) true ip
    && from_option (fun n => negb (length_ props <? n)) true lo
    && from_option (fun n => negb (length_ props >? n)) true hi
    && from_option (fun n => word_count props =? n) true wc
    && from_option
         (fun ch => negb (get0 (character_frequency_map props) ch =? 0))
         true cc.
Proof.
  destruct props as [pl pp pu pw ps pf].
  destruct ip as [b|], lo as [a|], hi as [h|], wc as [w|], cc as [c|]; simpl;
    repeat match goal with
      | |- context [eqb ?x ?y] => destruct (eqb x y)
      | |- context [?x <? ?y] => destruct (x <? y)
      | |- context [?x >? ?y] => destruct (x >? y)
      | |- context [?x =? ?y] => destruct (x =? y)
      end; reflexivity.
Qed.

(** C1: for every property record (its counts not negative, as occurrence
    counts are) and every filter, the row check of [list_strings] accepts the
    record exactly when each filter that is present holds: [is_palindrome]
    equal, [length >= min_length], [length <= max_length], [word_count]
    equal, and for [contains_character] a count in the frequency table that
    is greater than 0, a character without a key having none; with no filter
    present every record is accepted. *)
Theorem row_ok_iff ip lo hi wc cc props :
  counts_nonneg (character_frequency_map props) →
  (row_ok ip lo hi wc cc props = true
   ↔ (∀ b, ip = Some b → is_palindrome props = b)
     ∧ (∀ n, lo = Some n → length_ props >= n)
     ∧ (∀ n, hi = Some n → length_ props <= n)
     ∧ (∀ n, wc = Some n → word_count props = n)
     ∧ (∀ ch, cc = Some ch →
              ∃ n, character_frequency_map props !! ch = Some n ∧ n > 0))
  ∧ row_ok None None None None None props = true.
Proof.
  intros Hf. split; [|by destruct props].
  rewrite row_ok_andb, !andb_true_iff.
  assert (from_option (fun b => eqb (is_palindrome props) b) true ip = true
          ↔ ∀ b, ip = Some b → is_palindrome props = b) as ->.
  { destruct ip as [b|]; simpl; [|by split].
    rewrite eqb_true_iff. split; [by intros -> ? [= <-]|auto]. }
  assert (from_option (fun n => negb (length_ props <? n)) true lo = true
          ↔ ∀ n, lo = Some n → length_ props >= n) as ->.
  { destruct lo as [n|]; simpl; [|by split].
    rewrite negb_true_iff, Z.ltb_ge.
    split; [intros ? ? [= <-]; lia|]. intros H. specialize (H n eq_refl). lia. }
  assert (from_option (fun n => negb (length_ props >? n)) true hi = true
          ↔ ∀ n, hi = Some n → length_ props <= n) as ->.
  { destruct hi as [n|]; simpl; [|by split].
    rewrite negb_true_iff, Z.gtb_ltb, Z.ltb_ge.
    split; [intros ? ? [= <-]; lia|]. intros H. specialize (H n eq_refl). lia. }
  assert (from_option (fun n => word_count props =? n) true wc = true
          ↔ ∀ n, wc = Some n → word_count props = n) as ->.
  { destruct wc as [n|]; simpl; [|by split].
    rewrite Z.eqb_eq. split; [by intros -> ? [= <-]|auto]. }
  assert (from_option
            (fun ch => negb (get0 (character_frequency_map props) ch =? 0))
            true cc = true
          ↔ ∀ ch, cc = Some ch
                  → ∃ n, character_frequency_map props !! ch = Some n
                         ∧ n > 0) as ->.
  { destruct cc as [ch|]; simpl; [|by split].
    rewrite negb_true_iff, Z.eqb_neq.
    pose proof (get0_nonneg _ ch Hf) as Hg. revert Hg. unfold get0.
    destruct (character_frequency_map props !! ch) as [n|] eqn:E; simpl.
    - intros Hg. split.
      + intros Hn ch' [= <-]. exists n. split; [exact E|lia].
      + intros H'. destruct (H' ch eq_refl) as (n' & E' & ?).
        rewrite E in E'. injection E' as <-. lia.
    - intros _. split; [done|]. intros H'.
      destruct (H' ch eq_refl) as (n' & E' & _). by rewrite E in E'. }
  tauto.
Qed.

(** When [list_strings] answers, its [data] are the rows that pass the row
    check, in table order. *)
Lemma list_strings_data {datetime} (iso : datetime → str)
    ip lo hi wc cc db resp :
  list_strings iso ip lo hi wc cc db = ret resp →
  data resp
  = map (row_to_response iso)
      (List.filter (fun r => row_ok ip lo hi wc cc (properties_json r)) db).
Proof.
  unfold list_strings.
  destruct lo as [a|], hi as [h|]; try (by intros [= <-]).
  destruct (a >? h); [done|]. by intros [= <-].
Qed.

(** ** Rejecting contradictory bounds *)

(** C3: wherever a filter is built with both bounds present and
    [min_length > max_length], building it fails and no row is looked at:
    the closing check of the translator raises its conflict error on such a
    [parsed], and [list_strings] raises its own whatever the table holds;
    so for [min_length = 10], [max_length = 5]. *)
Theorem conflicting_filters_rejected :
  (∀ parsed, conflicting parsed → check_parsed parsed = raise ConflictError)
  ∧ (∀ datetime (iso : datetime → str) ip lo hi wc cc db,
       lo > hi →
       list_strings iso ip (Some lo) (Some hi) wc cc db = raise BoundsError)
  ∧ check_parsed (<["min_length" := VInt 10]> {["max_length" := VInt 5]})
    = raise ConflictError
  ∧ (∀ datetime (iso : datetime → str) ip wc cc db,
       list_strings iso ip (Some 10) (Some 5) wc cc db = raise BoundsError).
Proof.
  repeat split.
  - intros parsed (lo & hi & Hlo & Hhi & Hgt). unfold check_parsed.
    rewrite Hlo, Hhi. simpl. by rewrite (proj2 (Z.gtb_gt lo hi)) by lia.
  - intros datetime iso ip lo hi wc cc db Hgt. unfold list_strings.
    by rewrite (proj2 (Z.gtb_gt lo hi)) by lia.
Qed.

(** ** What the rules look for *)

Lemma search_first_vowel s :
  is_Some (re_search re_first_vowel s) ↔ contains (lit "first vowel") s.
Proof.
  rewrite re_search_Some. unfold contains, re_first_vowel. cbn [lang]. split.
  - intros (pre & w & post & -> & ->). by exists pre, post.
  - intros (pre & post & ->). by exists pre, (lit "first vowel"), post.
Qed.

Lemma search_single_word s :
  is_Some (re_search re_single_word s)
  ↔ contains (lit "single word") s ∨ contains (lit "one word") s.
Proof.
  rewrite re_search_Some. unfold contains. split.
  - intros (pre & w & post & -> & w1 & w2 & -> & [-> | ->] & ->).
    + left. by exists pre, post.
    + right. by exists pre, post.
  - intros [(pre & post & ->)|(pre & post & ->)].
    + exists pre, (lit "single word"), post. split; [done|].
      exists (lit "single"), (lit " word"). simpl. auto.
    + exists pre, (lit "one word"), post. split; [done|].
      exists (lit "one"), (lit " word"). simpl. auto.
Qed.

(** At "longer than " and a decimal number the pattern matches, and its
    group takes the whole number. *)
Lemma rmatch_longer_than ds post :
  digits ds → number_ends post →
  ∃ rest,
    rmatch re_longer_than (lit "longer than " ++ ds ++ post)
    = (lit "longer than " ++ ds, post, Some ds) :: rest.
Proof.
  intros [Hne Hds] Hpost.
  destruct (plus_cls_greedy isdigit ds post Hne Hds) as [rest Hrest].
  { by destruct post. }
  unfold re_longer_than. cbn [rmatch].
  rewrite bool_decide_eq_true_2 by by eexists.
  rewrite drop_app_length. cbn [flat_map]. rewrite Hrest. cbn.
  by eexists.
Qed.

Lemma lang_longer_than w :
  lang re_longer_than w → ∃ d w', w = lit "longer than " ++ d :: w' ∧ isdigit d = true.
Proof.
  intros (w1 & w2 & -> & -> & Hne & Hall). destruct w2 as [|d w']; [done|].
  apply Forall_cons in Hall as [Hd _]. by exists d, w'.
Qed.

Lemma digit_run s :
  ∃ ds post,
    s = ds ++ post ∧ Forall (fun c => isdigit c = true) ds ∧ number_ends post.
Proof.
  induction s as [|c s (ds & post & -> & Hds & Hpost)].
  - by exists [], [].
  - destruct (isdigit c) eqn:Hc.
    + exists (c :: ds), post. split; [done|]. split; [by constructor|done].
    + by exists [], (c :: ds ++ post).
Qed.

(** [re.search] stops at the first position that has a match: nothing
    matches before it. *)
Lemma re_search_Some_first r s m :
  re_search r s = Some m →
  ∃ pre t w t' rest,
    s = pre ++ t ∧ rmatch r t = (w, t', group1 m) :: rest
    ∧ ∀ a b, pre = a ++ b → b ≠ [] → ¬ matches_here r (b ++ t).
Proof.
  induction s as [|c s IH]; simpl.
  - destruct (rmatch r []) as [|[[w t'] g] rest] eqn:E; [done|].
    intros [= <-]. exists [], [], w, t', rest. split; [done|]. split; [done|].
    intros a b Hab Hb. symmetry in Hab. by apply app_eq_nil in Hab as [_ ?].
  - destruct (rmatch r (c :: s)) as [|[[w t'] g] rest] eqn:E.
    + intros Hm. destruct (IH Hm) as (pre & t & w & t' & rest & -> & Ht & Hn).
      exists (c :: pre), t, w, t', rest. split; [done|]. split; [done|].
      intros [|c' a] b Hab Hb; simpl in Hab.
      * subst b. by apply rmatch_nil.
      * injection Hab as -> ->. by apply (Hn a b).
    + intros [= <-]. exists [], (c :: s), w, t', rest.
      split; [done|]. split; [done|].
      intros a b Hab Hb. symmetry in Hab. by apply app_eq_nil in Hab as [_ ?].
Qed.

(** The second rule finds the first "longer than " with a number behind it,
    and its group is that number, whole. *)
Lemma search_longer_than_first pre s ds :
  longer_than_at pre s ds → first_longer_than pre s →
  re_search re_longer_than s = Some {| group1 := Some ds |}.
Proof.
  intros (post & Hs & Hds & Hpost) Hfirst.
  destruct (rmatch_longer_than ds post Hds Hpost) as [rest Hrest].
  rewrite Hs. eapply re_search_first; [|exact Hrest].
  intros a b -> Hb (w & t & Hw & L).
  apply lang_longer_than in L as (d & w' & -> & Hd).
  rewrite <- !app_assoc in Hs. rewrite Hw in Hs.
  rewrite <- !app_assoc in Hs. simpl in Hs.
  specialize (Hfirst a d (w' ++ t)). rewrite Hs in Hfirst.
  specialize (Hfirst eq_refl Hd). rewrite length_app in Hfirst.
  destruct b; [done|]. simpl in Hfirst. lia.
Qed.

Lemma search_longer_than_inv s m :
  re_search re_longer_than s = Some m →
  ∃ pre ds,
    longer_than_at pre s ds ∧ first_longer_than pre s
    ∧ m = {| group1 := Some ds |}.
Proof.
  intros Hm.
  destruct (re_search_Some_first _ _ _ Hm)
    as (pre & t & w & t' & rest & -> & Ht & Hn).
  assert (In (w, t', group1 m) (rmatch re_longer_than t)) as Hin
    by (rewrite Ht; by left).
  apply rmatch_sound in Hin as [-> (w1 & w2 & -> & Hw1 & Hne & Hw2)].
  cbn [lang] in Hw1. subst w1.
  destruct (digit_run t') as (ds' & post & -> & Hds' & Hpost).
  assert (digits (w2 ++ ds')) as Hds.
  { split; [by destruct w2|by apply Forall_app]. }
  destruct (rmatch_longer_than (w2 ++ ds') post Hds Hpost) as [rest' Hrest'].
  rewrite <- !app_assoc in Ht. rewrite <- !app_assoc in Hrest'.
  rewrite Hrest' in Ht.
  apply (f_equal (fun l : list path =>
                    match l with (_, _, g) :: _ => g | [] => None end)) in Ht.
  simpl in Ht. rename Ht into Hg.
  exists pre, (w2 ++ ds'). split; [|split].
  - exists post. by rewrite <- !app_assoc.
  - intros pre' d post' E Hd.
    apply app_eq_app in E as [l [[-> El]|[-> El]]].
    + destruct l as [|c l]; [rewrite app_nil_r; lia|].
      exfalso. apply (Hn pre' (c :: l) eq_refl); [done|].
      exists (lit "longer than " ++ [d]), post'. split.
      * by rewrite <- El, <- app_assoc.
      * exists (lit "longer than "), [d]. repeat split; try done.
        by constructor.
    + rewrite length_app. lia.
  - destruct m as [g]. simpl in Hg. by rewrite <- Hg.
Qed.

Lemma search_longer_than_is_Some s :
  is_Some (re_search re_longer_than s) ↔ ∃ pre ds, longer_than_at pre s ds.
Proof.
  split.
  - intros [m Hm]. apply search_longer_than_inv in Hm as (pre & ds & ? & _).
    by exists pre, ds.
  - intros (pre & ds & post & -> & [Hne Hds] & _). apply re_search_Some.
    exists pre, (lit "longer than " ++ ds), post.
    split; [by rewrite <- app_assoc|]. by exists (lit "longer than "), ds.
Qed.

Lemma number_too_long_search s :
  number_too_long s
  ↔ ∃ m, re_search re_longer_than s = Some m ∧ 4300 < len (group m).
Proof.
  split.
  - intros (pre & ds & Hat & Hfirst & Hl). eexists. split.
    + by apply (search_longer_than_first pre s ds).
    + done.
  - intros (m & Hm & Hl).
    apply search_longer_than_inv in Hm as (pre & ds & Hat & Hfirst & ->).
    by exists pre, ds.
Qed.

Lemma number_too_long_dec s : number_too_long s ∨ ¬ number_too_long s.
Proof.
  rewrite number_too_long_search.
  destruct (re_search re_longer_than s) as [m|].
  - destruct (Z.lt_ge_cases 4300 (len (group m))).
    + left. by exists m.
    + right. intros (m' & [= <-] & ?). lia.
  - right. by intros (m' & [=] & _).
Qed.

Lemma number_fits_search s m :
  ¬ number_too_long s → re_search re_longer_than s = Some m →
  len (group m) <= 4300.
Proof.
  intros Hn Hm. destruct (Z.lt_ge_cases 4300 (len (group m))); [|lia].
  destruct Hn. apply number_too_long_search. by exists m.
Qed.

Lemma group_has_Grp r : group_has (lang r) (Grp r).
Proof.
  intros s w t g. simpl. rewrite in_map_iff.
  intros ([[w' t'] g'] & [= <- <- <-] & Hin). exists w'.
  split; [done|]. by apply rmatch_sound in Hin as [_ ?].
Qed.

Lemma group_has_Cat P r1 r2 : group_has P r2 → group_has P (Cat r1 r2).
Proof.
  intros H2 s w t g. simpl. rewrite in_flat_map.
  intros ([[w1 t1] g1] & _ & Hin). apply in_map_iff in Hin.
  destruct Hin as ([[w2 t2] g2] & [= <- <- <-] & Hin).
  apply H2 in Hin as (x & -> & Hx). by exists x.
Qed.

Lemma search_longer_than_group s m :
  re_search re_longer_than s = Some m → ∃ ds, group1 m = Some ds ∧ digits ds.
Proof.
  intros H. apply re_search_In in H as (t & w & t' & Hin).
  revert Hin. apply (group_has_Cat (lang (Plus isdigit))), group_has_Grp.
Qed.

Lemma search_letter_group s m :
  re_search re_letter s = Some m →
  ∃ c, group1 m = Some [c] ∧ is_a_z c = true.
Proof.
  intros H. apply re_search_In in H as (t & w & t' & Hin).
  assert (group_has (lang (Cls is_a_z)) re_letter) as Hg.
  { do 5 apply group_has_Cat. apply group_has_Grp. }
  apply Hg in Hin as (x & -> & c & -> & Hc). by exists c.
Qed.

Lemma lang_letter w :
  lang re_letter w →
  ∃ w' c, w = w' ++ [c] ∧ w' ∈ letter_phrases ∧ is_a_z c = true.
Proof.
  intros (w1 & w2 & -> & -> & w3 & w4 & -> & Hverb & w5 & w6 & -> & ->
          & w7 & w8 & -> & Hart & w9 & w10 & -> & -> & c & -> & Hc).
  assert (∀ x : str, x ∈ letter_phrases
            ↔ x = lit "contain letter " ∨ x = lit "contain the letter "
              ∨ x = lit "containing letter " ∨ x = lit "containing the letter "
              ∨ x = lit "contains letter " ∨ x = lit "contains the letter ")
    as Hin.
  { intros x. unfold letter_phrases. rewrite !elem_of_cons, elem_of_nil.
    tauto. }
  destruct Hverb as [[-> | ->] | ->], Hart as [-> | ->].
  - exists (lit "containing the letter "), c. rewrite Hin. tauto.
  - exists (lit "containing letter "), c. rewrite Hin. tauto.
  - exists (lit "contains the letter "), c. rewrite Hin. tauto.
  - exists (lit "contains letter "), c. rewrite Hin. tauto.
  - exists (lit "contain the letter "), c. rewrite Hin. tauto.
  - exists (lit "contain letter "), c. rewrite Hin. tauto.
Qed.

Lemma group_last_Grp r : group_last (Grp r).
Proof.
  intros s w t g. simpl. rewrite in_map_iff.
  intros ([[w' t'] g'] & [= <- <- <-] & _). by exists w'.
Qed.

Lemma group_last_Cat r1 r2 : group_last r2 → group_last (Cat r1 r2).
Proof.
  intros H2 s w t g. simpl. rewrite in_flat_map.
  intros ([[w1 t1] g1] & _ & Hin). apply in_map_iff in Hin.
  destruct Hin as ([[w2 t2] g2] & [= <- <- <-] & Hin).
  apply H2 in Hin as (x & -> & Hx). exists x. split; [done|].
  by apply suffix_app_r.
Qed.

(** Two wordings that read the same text are the same wording. *)
Lemma letter_phrases_unique w c post w' c' post' :
  w ∈ letter_phrases → w' ∈ letter_phrases →
  w ++ c :: post = w' ++ c' :: post' → c = c'.
Proof.
  unfold letter_phrases. rewrite !elem_of_cons, !elem_of_nil.
  intros [->|[->|[->|[->|[->|[->|[]]]]]]] [->|[->|[->|[->|[->|[->|[]]]]]]];
    vm_compute lit; intros E; by simplify_eq/=.
Qed.

Lemma lang_letter_phrase w c :
  w ∈ letter_phrases → is_a_z c = true → lang re_letter (w ++ [c]).
Proof.
  intros Hw Hc.
  unfold letter_phrases in Hw. rewrite !elem_of_cons, elem_of_nil in Hw.
  assert (lang (Cat (Lit (lit "letter ")) (Grp (Cls is_a_z)))
            (lit "letter " ++ [c])) as L0.
  { exists (lit "letter "), [c]. repeat split. by exists c. }
  destruct Hw as [->|[->|[->|[->|[->|[->|[]]]]]]].
  - exists (lit "contain"), (lit " letter " ++ [c]). repeat split.
    exists [], (lit " letter " ++ [c]). split; [done|]. split; [by right|].
    exists (lit " "), (lit "letter " ++ [c]). repeat split.
    exists [], (lit "letter " ++ [c]). split; [done|]. split; [by right|done].
  - exists (lit "contain"), (lit " the letter " ++ [c]). repeat split.
    exists [], (lit " the letter " ++ [c]). split; [done|]. split; [by right|].
    exists (lit " "), (lit "the letter " ++ [c]). repeat split.
    exists (lit "the "), (lit "letter " ++ [c]). split; [done|].
    split; [by left|done].
  - exists (lit "contain"), (lit "ing letter " ++ [c]). repeat split.
    exists (lit "ing"), (lit " letter " ++ [c]). split; [done|].
    split; [left; by left|].
    exists (lit " "), (lit "letter " ++ [c]). repeat split.
    exists [], (lit "letter " ++ [c]). split; [done|]. split; [by right|done].
  - exists (lit "contain"), (lit "ing the letter " ++ [c]). repeat split.
    exists (lit "ing"), (lit " the letter " ++ [c]). split; [done|].
    split; [left; by left|].
    exists (lit " "), (lit "the letter " ++ [c]). repeat split.
    exists (lit "the "), (lit "letter " ++ [c]). split; [done|].
    split; [by left|done].
  - exists (lit "contain"), (lit "s letter " ++ [c]). repeat split.
    exists (lit "s"), (lit " letter " ++ [c]). split; [done|].
    split; [left; by right|].
    exists (lit " "), (lit "letter " ++ [c]). repeat split.
    exists [], (lit "letter " ++ [c]). split; [done|]. split; [by right|done].
  - exists (lit "contain"), (lit "s the letter " ++ [c]). repeat split.
    exists (lit "s"), (lit " the letter " ++ [c]). split; [done|].
    split; [left; by right|].
    exists (lit " "), (lit "the letter " ++ [c]). repeat split.
    exists (lit "the "), (lit "letter " ++ [c]). split; [done|].
    split; [by left|done].
Qed.

(** At one of the wordings and a letter the pattern matches, and in every
    way of matching its group takes the letter. *)
Lemma rmatch_letter w c post :
  w ∈ letter_phrases → is_a_z c = true →
  ∃ w0 t rest, rmatch re_letter (w ++ c :: post) = (w0, t, Some [c]) :: rest.
Proof.
  intros Hw Hc. pose proof (lang_letter_phrase w c Hw Hc) as L.
  destruct (rmatch_complete re_letter (w ++ [c]) post L) as [g0 Hg0].
  rewrite <- app_assoc in Hg0. change ([c] ++ post) with (c :: post) in Hg0.
  destruct (rmatch re_letter (w ++ c :: post)) as [|[[w0 t] g] rest] eqn:E;
    [done|].
  exists w0, t, rest. do 2 f_equal.
  assert (In (w0, t, g) (rmatch re_letter (w ++ c :: post))) as Hin
    by (rewrite E; by left).
  pose proof Hin as Hs. apply rmatch_sound in Hs as [Hs L0].
  apply lang_letter in L0 as (w' & c' & -> & Hw' & Hc').
  rewrite <- app_assoc in Hs. simpl in Hs.
  pose proof (letter_phrases_unique _ _ _ _ _ _ Hw Hw' Hs) as <-.
  assert (group_last re_letter) as Hl.
  { do 5 apply group_last_Cat. apply group_last_Grp. }
  assert (group_has (lang (Cls is_a_z)) re_letter) as Hg.
  { do 5 apply group_has_Cat. apply group_has_Grp. }
  pose proof Hin as Hin'. apply Hl in Hin as (x & -> & Hx).
  apply Hg in Hin' as (x' & [= <-] & c'' & -> & _).
  destruct Hx as [k Hk]. apply app_inj_tail in Hk as [_ ->]. done.
Qed.

(** The fourth rule finds the first of the wordings with a letter behind
    it, and its group is that letter. *)
Lemma search_letter_first pre s c :
  letter_at pre s c → first_letter_at pre s →
  re_search re_letter s = Some {| group1 := Some [c] |}.
Proof.
  intros (w & post & Hs & Hw & Hc) Hfirst.
  destruct (rmatch_letter w c post Hw Hc) as (w0 & t & rest & Hrest).
  rewrite Hs. eapply re_search_first; [|exact Hrest].
  intros a b -> Hb (w1 & t1 & Hw1 & L).
  apply lang_letter in L as (w' & c' & -> & Hw' & Hc').
  assert (letter_at a s c') as Hat.
  { exists w', t1. split; [|done].
    rewrite Hs, <- !app_assoc. f_equal. rewrite Hw1, <- !app_assoc. done. }
  apply Hfirst in Hat. rewrite length_app in Hat.
  destruct b; [done|]. simpl in Hat. lia.
Qed.

Lemma search_letter_is_Some s :
  is_Some (re_search re_letter s) ↔ ∃ pre c, letter_at pre s c.
Proof.
  rewrite re_search_Some. split.
  - intros (pre & w & post & -> & L).
    apply lang_letter in L as (w' & c & -> & Hw' & Hc).
    exists pre, c, w', post. by rewrite <- app_assoc.
  - intros (pre & c & w & post & -> & Hw & Hc).
    exists pre, (w ++ [c]), post. split; [by rewrite <- app_assoc|].
    by apply lang_letter_phrase.
Qed.

(** What the rules look for, said of the code and said of the text. *)
Lemma some_rule_matched_search s :
  ¬ some_rule_matched s
  ↔ re_search re_single_word s = None
    ∧ re_search re_longer_than s = None
    ∧ str_in (lit "palindrom") s = false
    ∧ re_search re_letter s = None
    ∧ re_search re_first_vowel s = None.
Proof.
  unfold some_rule_matched.
  rewrite <- search_single_word, <- search_longer_than_is_Some,
    <- str_in_contains, <- search_letter_is_Some, <- search_first_vowel.
  rewrite <- !not_eq_None_Some. split.
  - intros H.
    destruct (re_search re_single_word s); [destruct H; auto|].
    destruct (re_search re_longer_than s); [destruct H; auto|].
    destruct (str_in (lit "palindrom") s); [destruct H; auto|].
    destruct (re_search re_letter s); [destruct H; auto 6|].
    destruct (re_search re_first_vowel s); [destruct H; auto 6|].
    done.
  - intros (-> & -> & -> & -> & ->). intros [?|[?|[?|[?|?]]]]; done.
Qed.

Lemma lower_char_idemp c : lower_char (lower_char c) = lower_char c.
Proof. by destruct c as [[] [] [] [] [] [] [] []]. Qed.

Lemma lower_idemp s : lower (lower s) = lower s.
Proof.
  unfold lower. rewrite map_map. apply map_ext. intros c.
  apply lower_char_idemp.
Qed.

Lemma int_digits_nonneg ds :
  Forall (fun c => isdigit c = true) ds → 0 <= int_value ds.
Proof.
  induction ds as [|d ds IH] using rev_ind; [done|].
  rewrite Forall_app, Forall_singleton. intros [Hds Hd].
  rewrite int_app. specialize (IH Hds). unfold isdigit in Hd. lia.
Qed.

(** ** The translator, as the specification has it *)

Lemma translate_too_long q pre ds :
  longer_than_at pre (lower q) ds → first_longer_than pre (lower q) →
  4300 < len ds →
  parse_nl_query q = raise (ValueError (int_limit_message (length ds))).
Proof.
  intros Hat Hf Hl.
  apply (parse_nl_query_raise q {| group1 := Some ds |}); [|done].
  by apply (search_longer_than_first pre).
Qed.

Lemma translate_fits q :
  ¬ number_too_long (lower q) → ∃ d, apply_rules (lower q) = ret d.
Proof.
  intros Hn. apply apply_rules_ret. intros m Hm.
  by apply (number_fits_search (lower q)).
Qed.

Lemma translate_ret_fits q d :
  parse_nl_query q = ret d → ¬ number_too_long (lower q).
Proof.
  intros Hd (pre & ds & Hat & Hf & Hl).
  by rewrite (translate_too_long q pre ds Hat Hf Hl) in Hd.
Qed.

Lemma rules_empty q d :
  apply_rules (lower q) = ret d → d = ∅ ↔ ¬ some_rule_matched (lower q).
Proof.
  intros Hd. rewrite some_rule_matched_search. by apply apply_rules_empty.
Qed.



Lemma lower_char_digit c : isdigit c = true → lower_char c = c.
Proof.
  intros H. destruct c as [[] [] [] [] [] [] [] []]; try reflexivity;
    vm_compute in H; discriminate H.
Qed.

Lemma lower_digits ds :
  Forall (fun c => isdigit c = true) ds → lower ds = ds.
Proof.
  induction 1 as [|c ds Hc _ IH]; [done|].
  unfold lower in *. simpl. by rewrite IH, lower_char_digit.
Qed.

Lemma lower_app a b : lower (a ++ b) = lower a ++ lower b.
Proof. apply map_app. Qed.

Lemma long_number_digits : digits long_number.
Proof.
  split.
  - unfold long_number, times. intros E.
    apply (f_equal length) in E. rewrite length_replicate in E.
    simpl in E. lia.
  - by apply Forall_replicate.
Qed.

Lemma long_number_len : len long_number = 4301.
Proof. unfold len, long_number, times. rewrite length_replicate. lia. Qed.

(** The message of [int] on that number. *)
Lemma long_number_message :
  int_limit_message (length long_number)
  = lit "Exceeds the limit (4300 digits) for integer string conversion: value has 4301 digits; use sys.set_int_max_str_digits() to increase the limit".
Proof.
  unfold long_number, times. rewrite length_replicate. by vm_compute.
Qed.

(** A query that reads "longer than ", a number of 4301 digits, and a tail
    that is lower case and does not go on with a digit: the translator raises
    the [ValueError] of [int] on it. *)
Lemma long_query t :
  number_ends t → lower t = t →
  lower (lit "longer than " ++ long_number ++ t)
  = lit "longer than " ++ long_number ++ t
  ∧ longer_than_at [] (lit "longer than " ++ long_number ++ t) long_number
  ∧ first_longer_than [] (lit "longer than " ++ long_number ++ t)
  ∧ parse_nl_query (lit "longer than " ++ long_number ++ t)
    = raise (ValueError (int_limit_message (length long_number))).
Proof.
  intros Ht Hl.
  assert (lower (lit "longer than " ++ long_number ++ t)
          = lit "longer than " ++ long_number ++ t) as Hq.
  { rewrite !lower_app, Hl, (lower_digits _ (proj2 long_number_digits)).
    reflexivity. }
  assert (longer_than_at [] (lit "longer than " ++ long_number ++ t)
            long_number) as Hat.
  { exists t. split; [done|]. split; [apply long_number_digits|done]. }
  assert (first_longer_than [] (lit "longer than " ++ long_number ++ t))
    as Hf.
  { intros pre' d post' _ _. simpl. lia. }
  split; [done|]. split; [done|]. split; [done|].
  apply (translate_too_long _ [] long_number); rewrite ?Hq;
    [exact Hat|exact Hf|rewrite long_number_len; lia].
Qed.





(** C8, as amended: the translator returns a filter with [word_count = 1]
    exactly when the lower-cased query holds the characters "single word"
    or "one word", whatever stands before them, and the number behind the
    first "longer than ", if there is one, has at most 4300 digits; a filter
    it returns has no [word_count] otherwise; "single word strings" gives
    [{word_count: 1}]. *)
Theorem translate_single_word :
  (∀ q, (∃ d, parse_nl_query q = ret d ∧ d !! "word_count" = Some (VInt 1))
        ↔ (contains (lit "single word") (lower q)
           ∨ contains (lit "one word") (lower q))
          ∧ ¬ number_too_long (lower q))
  ∧ (∀ q d, parse_nl_query q = ret d →
            ¬ (contains (lit "single word") (lower q)
               ∨ contains (lit "one word") (lower q)) →
            d !! "word_count" = None)
  ∧ parse_nl_query (lit "single word strings") = ret {["word_count" := VInt 1]}.
Proof.
  split; [|split].
  - intros q. rewrite <- search_single_word. split.
    + intros (d & Hd & Hw). split; [|by apply (translate_ret_fits q d)].
      apply parse_nl_query_inv in Hd as [Hd _].
      rewrite (apply_rules_word_count _ _ Hd) in Hw.
      by destruct (re_search re_single_word (lower q)).
    + intros [[m Hm] Hn]. destruct (translate_fits q Hn) as [d Hd].
      exists d.
      assert (d !! "word_count" = Some (VInt 1)) as Hw.
      { by rewrite (apply_rules_word_count _ _ Hd), Hm. }
      split; [by eapply parse_nl_query_ret|done].
  - intros q d Hd Hn. apply parse_nl_query_inv in Hd as [Hd _].
    rewrite <- search_single_word in Hn.
    rewrite (apply_rules_word_count _ _ Hd).
    destruct (re_search re_single_word (lower q)); [|done].
    by destruct Hn.
  - by vm_compute.
Qed.

Ltac no_occurrence E Hs pre :=
  repeat (destruct pre as [|? pre];
          [first [discriminate E | vm_compute in Hs; discriminate Hs]
          |simpl in E; first [discriminate E | injection E as <- E]]).

(** C8, as stated, fails twice over: "someone words" gets [word_count = 1]
    although neither "single" nor "one" is a word of it, and a query with
    the word "single" followed by "word" behind a number of 4301 digits gets
    no filter. *)
Lemma translate_single_word_not_words :
  (let q := lit "someone words" in
   parse_nl_query q = ret {["word_count" := VInt 1]}
   ∧ ¬ word_then_word (lit "single") (lower q)
   ∧ ¬ word_then_word (lit "one") (lower q))
  ∧ (let q := lit "longer than " ++ long_number ++ lit " single word" in
     word_then_word (lit "single") (lower q)
     ∧ parse_nl_query q
       = raise (ValueError
                  (lit "Exceeds the limit (4300 digits) for integer string conversion: value has 4301 digits; use sys.set_int_max_str_digits() to increase the limit"))
     ∧ ¬ ∃ d, parse_nl_query q = ret d ∧ d !! "word_count" = Some (VInt 1)).
Proof.
  split.
  - intros q. split; [by vm_compute|].
    split; intros (pre & post & E & Hs); vm_compute in E;
      no_occurrence E Hs pre.
  - intros q.
    destruct (long_query (lit " single word") eq_refl eq_refl)
      as (Hq & _ & _ & Hr).
    rewrite long_number_message in Hr. fold q in Hq, Hr.
    split; [|split; [exact Hr|]].
    + rewrite Hq.
      exists (lit "longer than " ++ long_number ++ lit " "), [].
      split.
      * unfold q. by rewrite <- !app_assoc.
      * unfold word_start. by rewrite !rev_app_distr.
    + intros (d & Hd & _). by rewrite Hr in Hd.
Qed.

(** C2, as amended: whenever the lower-cased query holds "first vowel" and
    the number behind its first "longer than ", if there is one, has at most
    4300 digits, the translator returns a filter with
    [contains_character = "a"], also when the "letter X" rule found a
    letter, the later rule overwriting the earlier; and every filter it
    returns for such a query has [contains_character = "a"]. *)
Theorem first_vowel_wins :
  (∀ q, contains (lit "first vowel") (lower q) →
        ¬ number_too_long (lower q) →
        ∃ d, parse_nl_query q = ret d
             ∧ d !! "contains_character" = Some (VStr (lit "a")))
  ∧ (∀ q d, contains (lit "first vowel") (lower q) →
            parse_nl_query q = ret d →
            d !! "contains_character" = Some (VStr (lit "a")))
  ∧ (∀ q pre c, letter_at pre (lower q) c →
                contains (lit "first vowel") (lower q) →
                ¬ number_too_long (lower q) →
                ∃ d, parse_nl_query q = ret d
                     ∧ d !! "contains_character" = Some (VStr (lit "a")))
  ∧ parse_nl_query (lit "strings with the first vowel")
    = ret {["contains_character" := VStr (lit "a")]}
  ∧ parse_nl_query (lit "containing the letter z and the first vowel")
    = ret {["contains_character" := VStr (lit "a")]}.
Proof.
  assert (∀ q d, contains (lit "first vowel") (lower q) →
                 apply_rules (lower q) = ret d →
                 d !! "contains_character" = Some (VStr (lit "a"))) as Hc.
  { intros q d [m Hm]%search_first_vowel Hd.
    by rewrite (apply_rules_contains_character _ _ Hd), Hm. }
  assert (∀ q, contains (lit "first vowel") (lower q) →
               ¬ number_too_long (lower q) →
               ∃ d, parse_nl_query q = ret d
                    ∧ d !! "contains_character" = Some (VStr (lit "a"))) as H.
  { intros q Hq Hn. destruct (translate_fits q Hn) as [d Hd]. exists d.
    pose proof (Hc q d Hq Hd) as Hl.
    split; [by eapply parse_nl_query_ret|done]. }
  split; [done|]. split; [|split; [|split]].
  - intros q d Hq [Hd _]%parse_nl_query_inv. by apply (Hc q).
  - intros q pre c _ Hq Hn. by apply H.
  - by vm_compute.
  - by vm_compute.
Qed.

(** C2, as stated, fails: a query in which both the "letter X" wording and
    "first vowel" stand behind a number of 4301 digits gets no filter, the
    translator raising the [ValueError] of [int] before its fourth and fifth
    rules. *)
Lemma first_vowel_no_filter :
  let q := lit "longer than " ++ long_number
           ++ lit " containing the letter z and the first vowel" in
  letter_at (lit "longer than " ++ long_number ++ lit " ") (lower q) "z"
  ∧ contains (lit "first vowel") (lower q)
  ∧ parse_nl_query q
    = raise (ValueError
               (lit "Exceeds the limit (4300 digits) for integer string conversion: value has 4301 digits; use sys.set_int_max_str_digits() to increase the limit"))
  ∧ ¬ ∃ d, parse_nl_query q = ret d
           ∧ d !! "contains_character" = Some (VStr (lit "a")).
Proof.
  intros q.
  destruct (long_query (lit " containing the letter z and the first vowel")
              eq_refl eq_refl) as (Hq & _ & _ & Hr).
  rewrite long_number_message in Hr. fold q in Hq, Hr.
  split; [|split; [|split]].
  - rewrite Hq.
    exists (lit "containing the letter "), (lit " and the first vowel").
    split; [|split; [|reflexivity]].
    + unfold q. rewrite <- !app_assoc. reflexivity.
    + unfold letter_phrases. rewrite !elem_of_cons. tauto.
  - rewrite Hq.
    exists (lit "longer than " ++ long_number
            ++ lit " containing the letter z and the "), [].
    unfold q. rewrite <- !app_assoc. reflexivity.
  - exact Hr.
  - intros (d & Hd & _). by rewrite Hr in Hd.
Qed.

(** C6, as amended: when the lower-cased query reads "longer than " and a
    decimal number behind [pre], no "longer than " followed by a digit
    starts earlier, and the number has at most 4300 digits, the filter the
    translator returns has [min_length] one more than the number; with more
    digits the translator raises the [ValueError] of [int];
    "strings longer than 5" gives [{min_length: 6}]. *)
Theorem translate_longer_than :
  (∀ q pre ds,
     longer_than_at pre (lower q) ds → first_longer_than pre (lower q) →
     len ds <= 4300 →
     ∃ d, parse_nl_query q = ret d
          ∧ d !! "min_length" = Some (VInt (decimal ds + 1)))
  ∧ (∀ q pre ds,
       longer_than_at pre (lower q) ds → first_longer_than pre (lower q) →
       4300 < len ds →
       parse_nl_query q = raise (ValueError (int_limit_message (length ds))))
  ∧ parse_nl_query (lit "strings longer than 5") = ret {["min_length" := VInt 6]}.
Proof.
  split; [|split; [apply translate_too_long|by vm_compute]].
  intros q pre ds Hat Hfirst Hl.
  pose proof (search_longer_than_first _ _ _ Hat Hfirst) as Hm.
  destruct (apply_rules_ret (lower q)) as [d Hd].
  { intros m. rewrite Hm. by intros [= <-]. }
  exists d.
  assert (d !! "min_length" = Some (VInt (decimal ds + 1))) as Hk.
  { rewrite (apply_rules_min_length _ _ Hd), Hm. simpl. unfold group. simpl.
    by rewrite int_decimal. }
  split; [by eapply parse_nl_query_ret|done].
Qed.

(** C6, as stated, fails twice over: "longer than 5 or longer than 10"
    holds "longer than " followed by 10 and gets [min_length = 6], the
    number of the first occurrence plus one; and a number of 4301 digits
    gets no filter. *)
Lemma translate_longer_than_not_every_occurrence :
  (let q := lit "longer than 5 or longer than 10" in
   longer_than (lower q) 10
   ∧ parse_nl_query q = ret {["min_length" := VInt 6]}
   ∧ ¬ ∃ d, parse_nl_query q = ret d
            ∧ d !! "min_length" = Some (VInt (10 + 1)))
  ∧ (let q := lit "longer than " ++ long_number in
     longer_than (lower q) (decimal long_number)
     ∧ parse_nl_query q
       = raise (ValueError
                  (lit "Exceeds the limit (4300 digits) for integer string conversion: value has 4301 digits; use sys.set_int_max_str_digits() to increase the limit"))
     ∧ ¬ ∃ d, parse_nl_query q = ret d
              ∧ d !! "min_length" = Some (VInt (decimal long_number + 1))).
Proof.
  split.
  - intros q. split; [|split].
    + exists (lit "longer than 5 or "), (lit "10"). split; [|reflexivity].
      exists []. repeat split; try done. by repeat constructor.
    + by vm_compute.
    + intros (d & Hd & Hm). vm_compute in Hd. injection Hd as <-.
      by vm_compute in Hm.
  - intros q.
    destruct (long_query [] I eq_refl) as (Hq & Hat & _ & Hr).
    rewrite app_nil_r in Hq, Hat, Hr. rewrite long_number_message in Hr.
    fold q in Hq, Hat, Hr.
    split; [|split; [exact Hr|]].
    + rewrite Hq. exists [], long_number. split; [exact Hat|reflexivity].
    + intros (d & Hd & _). by rewrite Hr in Hd.
Qed.

(** ** The statements at concrete inputs *)

(** C1 at the record of "level" and the filter
    [{is_palindrome: true, min_length: 3, contains_character: "l"}]. *)
Lemma row_ok_iff_witness :
  let props := compute_properties (fun _ => []) (lit "level") in
  counts_nonneg (character_frequency_map props)
  ∧ row_ok (Some true) (Some 3) None None (Some (lit "l")) props = true.
Proof.
  intros props.
  assert (counts_nonneg (character_frequency_map props)) as Hf.
  { apply (bool_decide_unpack _). vm_compute. exact I. }
  split; [exact Hf|].
  apply (proj1 (row_ok_iff (Some true) (Some 3) None None (Some (lit "l"))
                  props Hf)).
  repeat split; intros v E; try discriminate E.
  - injection E as <-. reflexivity.
  - injection E as <-. vm_compute. discriminate.
  - injection E as <-. exists 2. split; [reflexivity|]. reflexivity.
Defined.

(** C4 at "Level". *)
Lemma compute_is_palindrome_witness :
  lower (lit "Level") = rev (lower (lit "Level"))
  ∧ is_palindrome (compute_properties (fun _ => []) (lit "Level")) = true.
Proof.
  assert (lower (lit "Level") = rev (lower (lit "Level"))) as E
    by reflexivity.
  split; [exact E|].
  apply (proj1 (compute_is_palindrome (fun _ => [])) (lit "Level")), E.
Defined.

(** C5 at "race a car". *)
Lemma compute_word_count_witness :
  tokenized (lit "race a car") [lit "race"; lit "a"; lit "car"]
  ∧ word_count (compute_properties (fun _ => []) (lit "race a car")) = 3.
Proof.
  assert (tokenized (lit "race a car") [lit "race"; lit "a"; lit "car"])
    as Hts.
  { apply (tokenized_token [] (lit "race") (lit " a car"));
      [constructor|split; [discriminate|by repeat constructor]|reflexivity|].
    apply (tokenized_token (lit " ") (lit "a") (lit " car"));
      [by repeat constructor|split; [discriminate|by repeat constructor]
      |reflexivity|].
    apply (tokenized_token (lit " ") (lit "car") []);
      [by repeat constructor|split; [discriminate|by repeat constructor]
      |exact I|].
    constructor. constructor. }
  split; [exact Hts|].
  apply (compute_word_count (fun _ => []) _ _ Hts). vm_compute. discriminate.
Defined.

(** C9 at "hello". *)
Lemma compute_unique_characters_witness :
  NoDup (lit "helo")
  ∧ (∀ c, c ∈ lit "helo" ↔ c ∈ lit "hello")
  ∧ unique_characters (compute_properties (fun _ => []) (lit "hello")) = 4.
Proof.
  assert (NoDup (lit "helo")) as Hnd.
  { apply (bool_decide_unpack _). vm_compute. exact I. }
  assert (∀ c, c ∈ lit "helo" ↔ c ∈ lit "hello") as Hl.
  { intros c. vm_compute lit. rewrite !elem_of_cons. tauto. }
  split; [exact Hnd|]. split; [exact Hl|].
  apply (proj1 (compute_unique_characters (fun _ => [])) _ _ Hnd Hl).
Defined.

(** C3 at [{min_length: 10, max_length: 5}]. *)
Lemma conflicting_filters_rejected_witness :
  let parsed : gmap string pyval :=
    <["min_length" := VInt 10]> {["max_length" := VInt 5]} in
  conflicting parsed ∧ check_parsed parsed = raise ConflictError.
Proof.
  intros parsed.
  assert (conflicting parsed) as Hc.
  { exists 10, 5. repeat split; reflexivity. }
  split; [exact Hc|].
  apply (proj1 conflicting_filters_rejected parsed Hc).
Defined.

Lemma fits_by_search s :
  re_search re_longer_than s = None → ¬ number_too_long s.
Proof.
  intros Hs (m & Hm & _)%number_too_long_search. by rewrite Hs in Hm.
Qed.



(** C8 at "Someone Words". *)
Lemma translate_single_word_witness :
  let q := lit "Someone Words" in
  ((contains (lit "single word") (lower q)
    ∨ contains (lit "one word") (lower q))
   ∧ ¬ number_too_long (lower q))
  ∧ ∃ d, parse_nl_query q = ret d ∧ d !! "word_count" = Some (VInt 1).
Proof.
  intros q.
  assert ((contains (lit "single word") (lower q)
           ∨ contains (lit "one word") (lower q))
          ∧ ¬ number_too_long (lower q)) as Hq.
  { split.
    - right. exists (lit "some"), (lit "s"). reflexivity.
    - apply fits_by_search. reflexivity. }
  split; [exact Hq|].
  apply (proj2 (proj1 translate_single_word q) Hq).
Defined.

(** C2 at "Words with the First Vowel". *)
Lemma first_vowel_wins_witness :
  let q := lit "Words with the First Vowel" in
  contains (lit "first vowel") (lower q)
  ∧ ¬ number_too_long (lower q)
  ∧ ∃ d, parse_nl_query q = ret d
         ∧ d !! "contains_character" = Some (VStr (lit "a")).
Proof.
  intros q.
  assert (contains (lit "first vowel") (lower q)) as Hq.
  { exists (lit "words with the "), []. reflexivity. }
  assert (¬ number_too_long (lower q)) as Hn.
  { apply fits_by_search. reflexivity. }
  split; [exact Hq|]. split; [exact Hn|].
  apply (proj1 first_vowel_wins q Hq Hn).
Defined.

(** C6, as amended, at "strings longer than 5". *)
Lemma translate_longer_than_witness :
  let q := lit "Strings longer than 5" in
  longer_than_at (lit "strings ") (lower q) (lit "5")
  ∧ first_longer_than (lit "strings ") (lower q)
  ∧ len (lit "5") <= 4300
  ∧ ∃ d, parse_nl_query q = ret d
         ∧ d !! "min_length" = Some (VInt (decimal (lit "5") + 1)).
Proof.
  intros q.
  assert (longer_than_at (lit "strings ") (lower q) (lit "5")) as Hat.
  { exists []. repeat split; try reflexivity; try discriminate.
    by repeat constructor. }
  assert (first_longer_than (lit "strings ") (lower q)) as Hfirst.
  { intros pre' d post' E _. vm_compute in E.
    do 8 (destruct pre' as [|? pre']; [discriminate E|];
          simpl in E; injection E as _ E).
    simpl. lia. }
  assert (len (lit "5") <= 4300) as Hl by (vm_compute; discriminate).
  split; [exact Hat|]. split; [exact Hfirst|]. split; [exact Hl|].
  apply (proj1 translate_longer_than q (lit "strings ") (lit "5")
           Hat Hfirst Hl).
Defined.

(** * Further properties of the code *)

(** ** The property engine *)

Lemma occurrences_cons c x s :
  occurrences c (x :: s) = (if bool_decide (x = c) then 1 else 0) + occurrences c s.
Proof.
  unfold occurrences, len. simpl. case_bool_decide; simpl; lia.
Qed.

Lemma occurrences_nonneg c s : 0 <= occurrences c s.
Proof. unfold occurrences, len. lia. Qed.

Lemma occurrences_not_elem c s : c ∉ s → occurrences c s = 0.
Proof.
  induction s as [|x s IH]; [done|]. rewrite not_elem_of_cons.
  intros [Hne Hn]. rewrite occurrences_cons, IH by done.
  by rewrite bool_decide_eq_false_2.
Qed.

Lemma occurrences_elem c s : c ∈ s → 1 <= occurrences c s.
Proof.
  induction s as [|x s IH]; [by intros ?%elem_of_nil|].
  rewrite occurrences_cons. pose proof (occurrences_nonneg c s).
  intros [->|Hin]%elem_of_cons.
  - rewrite bool_decide_eq_true_2 by done. lia.
  - specialize (IH Hin). case_bool_decide; lia.
Qed.

(** The loop of [compute_properties], key by key. *)
Lemma fold_count_char_lookup s freq k :
  fold_left count_char (chars s) freq !! k
  = match k with
    | [c] => if bool_decide (c ∈ s)
             then Some (get0 freq k + occurrences c s) else freq !! k
    | _ => freq !! k
    end.
Proof.
  revert freq. induction s as [|x s IH]; intros freq; simpl.
  - by destruct k as [|c [|? ?]].
  - rewrite IH. unfold count_char.
    destruct k as [|c [|c' k]].
    + by rewrite lookup_insert_ne.
    + rewrite occurrences_cons. unfold get0 at 1.
      destruct (decide (x = c)) as [->|Hne].
      * rewrite lookup_insert_eq. simpl.
        rewrite (bool_decide_eq_true_2 (c ∈ c :: s)) by apply list_elem_of_here.
        rewrite (bool_decide_eq_true_2 (c = c)) by done.
        case_bool_decide as Hin; [f_equal; lia|].
        rewrite (occurrences_not_elem c s Hin). f_equal; lia.
      * rewrite lookup_insert_ne by congruence.
        rewrite (bool_decide_eq_false_2 (x = c)) by done.
        case_bool_decide as Hin.
        -- rewrite bool_decide_eq_true_2 by by apply list_elem_of_further.
           done.
        -- rewrite bool_decide_eq_false_2; [done|].
           rewrite not_elem_of_cons. split; [congruence|done].
    + by rewrite lookup_insert_ne.
Qed.

Lemma compute_frequency_lookup sha s k :
  character_frequency_map (compute_properties sha s) !! k
  = match k with
    | [c] => if bool_decide (c ∈ s) then Some (occurrences c s) else None
    | _ => None
    end.
Proof.
  simpl. rewrite fold_count_char_lookup. by destruct k as [|c [|? ?]].
Qed.

(** X1: the frequency table of a computed record holds, under each
    one-character key, the number of times the character stands in the
    string, which is at least 1; a character that does not occur has no key
    and reads 0, and there is no other key. *)
Theorem compute_character_frequency sha s :
  (∀ c, get0 (character_frequency_map (compute_properties sha s)) [c]
        = occurrences c s)
  ∧ (∀ k, is_Some (character_frequency_map (compute_properties sha s) !! k)
          ↔ ∃ c, k = [c] ∧ c ∈ s)
  ∧ (∀ k n, character_frequency_map (compute_properties sha s) !! k = Some n
            → 1 <= n).
Proof.
  split; [|split].
  - intros c. unfold get0. rewrite compute_frequency_lookup.
    case_bool_decide as Hin; [done|]. simpl.
    by rewrite occurrences_not_elem.
  - intros k. rewrite compute_frequency_lookup. split.
    + destruct k as [|c [|? ?]]; try by intros [? ?].
      case_bool_decide; [|by intros [? ?]]. intros _. by exists c.
    + intros (c & -> & Hin). by rewrite bool_decide_eq_true_2.
  - intros k n. rewrite compute_frequency_lookup.
    destruct k as [|c [|? ?]]; try done.
    case_bool_decide as Hin; [|done]. intros [= <-].
    by apply occurrences_elem.
Qed.

Lemma compute_frequency_dom sha s :
  dom (character_frequency_map (compute_properties sha s))
  = (list_to_set (chars s) : gset str).
Proof.
  apply set_eq. intros k.
  rewrite elem_of_dom, elem_of_list_to_set, compute_frequency_lookup.
  unfold chars. rewrite list_elem_of_In, in_map_iff. split.
  - destruct k as [|c [|? ?]]; try by intros [? ?].
    case_bool_decide as Hin; [|by intros [? ?]]. intros _. exists c.
    split; [done|]. by apply list_elem_of_In.
  - intros (c & <- & Hin). apply list_elem_of_In in Hin.
    by rewrite bool_decide_eq_true_2.
Qed.

(** X2: [unique_characters] of a computed record is the number of keys of
    its frequency table. *)
Theorem compute_unique_is_table_size sha s :
  unique_characters (compute_properties sha s)
  = Z.of_nat (size (character_frequency_map (compute_properties sha s))).
Proof.
  rewrite <- size_dom, compute_frequency_dom. reflexivity.
Qed.

Lemma size_list_to_set_le (l : list str) :
  (size (list_to_set l : gset str) <= length l)%nat.
Proof.
  induction l as [|x l IH].
  - change (size (∅ : gset str) <= 0)%nat. by rewrite size_empty.
  - change (size ({[x]} ∪ list_to_set l : gset str) <= S (length l))%nat.
    rewrite size_union_alt, size_singleton.
    assert (size (list_to_set l ∖ {[x]} : gset str)
            <= size (list_to_set l : gset str))%nat.
    { apply subseteq_size. intros y Hy. by apply elem_of_difference in Hy as [? _]. }
    lia.
Qed.

Lemma split_from_length cur s :
  (2 * length (split_from cur s)
   <= length s + 1 + match cur with [] => 0 | _ => 1 end)%nat.
Proof.
  revert cur. induction s as [|c s IH]; intros cur; simpl.
  - destruct cur; simpl; lia.
  - destruct (isspace c).
    + destruct cur; simpl; specialize (IH []); simpl in IH; lia.
    + specialize (IH (c :: cur)). simpl in IH. destruct cur; lia.
Qed.

(** X3: in a computed record [unique_characters] lies between 0 and
    [length], and [word_count] between 0 and half of [length + 1]. *)
Theorem compute_bounds sha s :
  0 <= unique_characters (compute_properties sha s)
       <= length_ (compute_properties sha s)
  ∧ 0 <= word_count (compute_properties sha s)
  ∧ 2 * word_count (compute_properties sha s)
    <= length_ (compute_properties sha s) + 1.
Proof.
  simpl. unfold len.
  pose proof (size_list_to_set_le (chars s)) as H1.
  unfold chars in H1 at 2. rewrite length_map in H1.
  pose proof (split_from_length [] s) as H2. fold (split s) in H2.
  simpl in H2. destruct (str_eqb (strip s) []); lia.
Qed.

Lemma tokenized_nil s : tokenized s [] → blank s.
Proof. by inversion 1. Qed.

(** X4: [word_count] of a computed record is 0 exactly when the string is
    empty or all white space. *)
Theorem compute_word_count_zero sha s :
  word_count (compute_properties sha s) = 0 ↔ blank s.
Proof.
  simpl. unfold str_eqb. case_bool_decide as E.
  - split; [intros _|done]. by apply strip_nil.
  - rewrite <- strip_nil. split; [|done]. unfold len. intros H.
    destruct (split s) eqn:Hs; [|simpl in H; lia].
    pose proof (split_tokenized s) as Ht. rewrite Hs in Ht.
    by apply strip_nil, tokenized_nil.
Qed.

(** X5: [is_palindrome] depends on a string through its lower-cased form
    only: lower-casing the string leaves it as it is, and two strings with
    the same lower-cased form have the same [is_palindrome]. *)
Theorem compute_is_palindrome_invariant sha s :
  is_palindrome (compute_properties sha (lower s))
  = is_palindrome (compute_properties sha s)
  ∧ (∀ s', lower s' = lower s →
           is_palindrome (compute_properties sha s')
           = is_palindrome (compute_properties sha s)).
Proof.
  simpl. split.
  - by rewrite lower_idemp.
  - by intros s' ->.
Qed.

Lemma occurrences_Permutation c s1 s2 :
  Permutation s1 s2 → occurrences c s1 = occurrences c s2.
Proof.
  induction 1 as [|x s1 s2 _ IH|x y s|s1 s2 s3 _ IH1 _ IH2].
  - done.
  - by rewrite !occurrences_cons, IH.
  - rewrite !occurrences_cons. lia.
  - by rewrite IH1.
Qed.

(** X6: two strings made of the same characters, each as many times, get
    the same [length], [unique_characters] and frequency table. *)
Theorem compute_anagram sha s1 s2 :
  Permutation s1 s2 →
  length_ (compute_properties sha s1) = length_ (compute_properties sha s2)
  ∧ unique_characters (compute_properties sha s1)
    = unique_characters (compute_properties sha s2)
  ∧ character_frequency_map (compute_properties sha s1)
    = character_frequency_map (compute_properties sha s2).
Proof.
  intros Hp.
  assert (character_frequency_map (compute_properties sha s1)
          = character_frequency_map (compute_properties sha s2)) as Hf.
  { apply map_eq. intros k. rewrite !compute_frequency_lookup.
    destruct k as [|c [|? ?]]; try done.
    rewrite (occurrences_Permutation c s1 s2 Hp).
    rewrite (bool_decide_ext (c ∈ s1) (c ∈ s2)); [done|]. by rewrite Hp. }
  split; [|split; [|done]].
  - simpl. unfold len. by rewrite (Permutation_length Hp).
  - change (unique_characters (compute_properties sha s1))
      with (Z.of_nat (size (list_to_set (chars s1) : gset str))).
    change (unique_characters (compute_properties sha s2))
      with (Z.of_nat (size (list_to_set (chars s2) : gset str))).
    by rewrite <- !(compute_frequency_dom sha), Hf.
Qed.

Lemma total_count_insert freq k n :
  total_count (<[k := n]> freq) = total_count freq - get0 freq k + n.
Proof.
  unfold total_count, get0.
  assert (∀ (m : gmap str Z) x, m !! k = None →
            map_fold (fun _ n acc => n + acc) 0 (<[k := x]> m)
            = x + map_fold (fun _ n acc => n + acc) 0 m) as Hins.
  { intros m x Hm. rewrite map_fold_insert_L; [done| |done]. intros. lia. }
  destruct (freq !! k) as [n0|] eqn:E; simpl.
  - rewrite <- (insert_delete_id freq k n0 E) at 2.
    rewrite <- insert_delete_eq.
    rewrite !Hins by apply lookup_delete_eq. lia.
  - rewrite Hins by done. lia.
Qed.

Lemma fold_count_char_total l freq :
  total_count (fold_left count_char l freq) = total_count freq + len l.
Proof.
  revert freq. induction l as [|ch l IH]; intros freq; simpl.
  - unfold len. simpl. lia.
  - rewrite IH. unfold count_char. rewrite total_count_insert.
    unfold len. simpl length. lia.
Qed.

(** X7: in a computed record the counts of the frequency table add up to
    [length]. *)
Theorem compute_counts_total sha s :
  total_count (character_frequency_map (compute_properties sha s))
  = length_ (compute_properties sha s).
Proof.
  simpl. rewrite fold_count_char_total. unfold total_count, chars, len.
  rewrite map_fold_empty, length_map. lia.
Qed.

(** ** The translator *)

Lemma apply_rules_entry s d k v :
  apply_rules s = ret d → d !! k = Some v → filter_entry k v.
Proof.
  intros Hd. unfold filter_entry.
  destruct (decide (k = "word_count")) as [->|H1].
  { rewrite (apply_rules_word_count _ _ Hd).
    destruct (re_search re_single_word s); [|done]. intros [= <-]. auto. }
  destruct (decide (k = "min_length")) as [->|H2].
  { rewrite (apply_rules_min_length _ _ Hd).
    destruct (re_search re_longer_than s) as [m|] eqn:E; [|done].
    intros [= <-]. right. left. split; [done|].
    apply search_longer_than_group in E as (ds & Hg & _ & Hds).
    eexists. split; [done|]. unfold group. rewrite Hg. simpl.
    apply int_digits_nonneg in Hds. lia. }
  destruct (decide (k = "is_palindrome")) as [->|H3].
  { rewrite (apply_rules_is_palindrome _ _ Hd).
    destruct (str_in (lit "palindrom") s); [|done]. intros [= <-]. auto. }
  destruct (decide (k = "contains_character")) as [->|H4].
  { rewrite (apply_rules_contains_character _ _ Hd). intros H. do 3 right.
    split; [done|].
    destruct (re_search re_first_vowel s).
    - injection H as <-. by exists "a"%char.
    - destruct (re_search re_letter s) as [m|] eqn:E; [|done].
      injection H as <-.
      apply search_letter_group in E as (c & Hg & Hc).
      exists c. unfold group. by rewrite Hg. }
  intros Hv. assert (is_Some (d !! k)) as Hs by by eexists.
  apply (apply_rules_keys _ _ _ Hd) in Hs.
  rewrite !elem_of_cons, elem_of_nil in Hs. tauto.
Qed.

(** X8: whatever filter the translator returns holds nothing but
    [word_count = 1], a [min_length] of at least 1, [is_palindrome = True]
    and a [contains_character] of exactly one letter of a..z. *)
Theorem translate_well_formed q d k v :
  parse_nl_query q = ret d → d !! k = Some v → filter_entry k v.
Proof.
  intros [Hd _]%parse_nl_query_inv. by apply (apply_rules_entry (lower q)).
Qed.

(** X9: the translator returns a filter with [is_palindrome = True] exactly
    when the lower-cased query holds "palindrom" and the number behind its
    first "longer than ", if there is one, has at most 4300 digits; it never
    writes [is_palindrome = False]. *)
Theorem translate_palindrome q :
  ((∃ d, parse_nl_query q = ret d ∧ d !! "is_palindrome" = Some (VBool true))
   ↔ contains (lit "palindrom") (lower q) ∧ ¬ number_too_long (lower q))
  ∧ (∀ d, parse_nl_query q = ret d →
          d !! "is_palindrome" ≠ Some (VBool false)).
Proof.
  split.
  - rewrite <- str_in_contains. split.
    + intros (d & Hd & Hp). split; [|by apply (translate_ret_fits q d)].
      apply parse_nl_query_inv in Hd as [Hd _].
      rewrite (apply_rules_is_palindrome _ _ Hd) in Hp.
      by destruct (str_in (lit "palindrom") (lower q)).
    + intros [Hin Hn]. destruct (translate_fits q Hn) as [d Hd]. exists d.
      assert (d !! "is_palindrome" = Some (VBool true)) as Hp
        by by rewrite (apply_rules_is_palindrome _ _ Hd), Hin.
      split; [by eapply parse_nl_query_ret|done].
  - intros d [Hd _]%parse_nl_query_inv.
    rewrite (apply_rules_is_palindrome _ _ Hd).
    by destruct (str_in (lit "palindrom") (lower q)).
Qed.

(** X10: the translator does not tell upper from lower case: a query and
    its lower-cased form translate alike. *)
Theorem translate_case_insensitive q :
  parse_nl_query (lower q) = parse_nl_query q.
Proof. unfold parse_nl_query. by rewrite lower_idemp. Qed.

(** X11: the translator returns a filter with a [min_length] exactly when
    the lower-cased query holds "longer than " followed by a decimal number
    and the number behind the first "longer than " has at most 4300
    digits. *)
Theorem translate_min_length_present q :
  (∃ d n, parse_nl_query q = ret d ∧ d !! "min_length" = Some (VInt n))
  ↔ (∃ N, longer_than (lower q) N) ∧ ¬ number_too_long (lower q).
Proof.
  assert ((∃ N, longer_than (lower q) N)
          ↔ is_Some (re_search re_longer_than (lower q))) as ->.
  { rewrite search_longer_than_is_Some. split.
    - intros (N & pre & ds & Hat & _). by exists pre, ds.
    - intros (pre & ds & Hat). by exists (decimal ds), pre, ds. }
  split.
  - intros (d & n & Hd & Hn). split; [|by apply (translate_ret_fits q d)].
    apply parse_nl_query_inv in Hd as [Hd _].
    rewrite (apply_rules_min_length _ _ Hd) in Hn.
    destruct (re_search re_longer_than (lower q)); [by eexists|done].
  - intros [[m Hm] Hn]. destruct (translate_fits q Hn) as [d Hd].
    exists d, (int_value (group m) + 1).
    assert (d !! "min_length" = Some (VInt (int_value (group m) + 1))) as Hl
      by by rewrite (apply_rules_min_length _ _ Hd), Hm.
    split; [by eapply parse_nl_query_ret|done].
Qed.

(** X12: when the lower-cased query reads, behind [pre], "contain",
    "containing" or "contains", then "letter " or "the letter ", then a
    letter of a..z, when no such wording starts earlier, when the query has
    no "first vowel", and when the number behind its first "longer than ",
    if there is one, has at most 4300 digits, the filter returned has that
    letter as [contains_character]. *)
Theorem translate_letter q pre c :
  letter_at pre (lower q) c → first_letter_at pre (lower q) →
  ¬ contains (lit "first vowel") (lower q) →
  ¬ number_too_long (lower q) →
  ∃ d, parse_nl_query q = ret d
       ∧ d !! "contains_character" = Some (VStr [c]).
Proof.
  intros Hat Hfirst Hnv Hn.
  pose proof (search_letter_first _ _ _ Hat Hfirst) as Hm.
  destruct (translate_fits q Hn) as [d Hd]. exists d.
  assert (d !! "contains_character" = Some (VStr [c])) as Hl.
  { rewrite (apply_rules_contains_character _ _ Hd), Hm.
    destruct (re_search re_first_vowel (lower q)) as [m|] eqn:E; [|done].
    destruct Hnv. apply search_first_vowel. by exists m. }
  split; [by eapply parse_nl_query_ret|done].
Qed.

(** ** Listing with filters *)

Lemma filters_applied_of_lookup ip lo hi wc cc k :
  filters_applied_of ip lo hi wc cc !! k
  = if decide (k = "is_palindrome") then VBool <$> ip
    else if decide (k = "min_length") then VInt <$> lo
    else if decide (k = "max_length") then VInt <$> hi
    else if decide (k = "word_count") then VInt <$> wc
    else if decide (k = "contains_character") then VStr <$> cc
    else None.
Proof.
  unfold filters_applied_of.
  destruct ip, lo, hi, wc, cc; repeat case_decide; by simplify_map_eq.
Qed.

Lemma list_strings_ret {datetime} (iso : datetime → str)
    ip lo hi wc cc db resp :
  list_strings iso ip lo hi wc cc db = ret resp →
  resp
  = {| data :=
         map (row_to_response iso)
           (List.filter (fun r => row_ok ip lo hi wc cc (properties_json r))
              db);
       count :=
         len (map (row_to_response iso)
                (List.filter
                   (fun r => row_ok ip lo hi wc cc (properties_json r)) db));
       filters_applied := filters_applied_of ip lo hi wc cc |}.
Proof.
  unfold list_strings.
  destruct lo as [a|], hi as [h|]; try (by intros [= <-]).
  destruct (a >? h); [done|]. by intros [= <-].
Qed.

(** X13: [list_strings] answers exactly when the bounds do not cross, equal
    bounds included; otherwise it raises its 400 and nothing else. *)
Theorem list_strings_answers {datetime} (iso : datetime → str)
    ip lo hi wc cc db :
  ((∃ resp, list_strings iso ip lo hi wc cc db = ret resp)
   ↔ ∀ a b, lo = Some a → hi = Some b → a <= b)
  ∧ ((∃ resp, list_strings iso ip lo hi wc cc db = ret resp)
     ∨ list_strings iso ip lo hi wc cc db = raise BoundsError).
Proof.
  unfold list_strings.
  destruct lo as [a|], hi as [h|]; simpl;
    try (split; [split; [done|intros _; by eexists]|left; by eexists]).
  destruct (Z.gtb_spec a h) as [Hgt|Hle]; simpl.
  - split; [|by right]. split; [by intros [? ?]|].
    intros H. specialize (H a h eq_refl eq_refl). lia.
  - split; [|left; by eexists]. split; [|intros _; by eexists].
    intros _ ? ? [= <-] [= <-]. lia.
Qed.

(** X14: in an answer of [list_strings], [count] is the number of items of
    [data] and at most the number of rows, and the items are exactly the
    responses of the rows that pass the row check. *)
Theorem list_strings_data_count {datetime} (iso : datetime → str)
    ip lo hi wc cc db resp :
  list_strings iso ip lo hi wc cc db = ret resp →
  count resp = len (data resp)
  ∧ 0 <= count resp <= len db
  ∧ (∀ item, item ∈ data resp
             ↔ ∃ r, r ∈ db
                    ∧ row_ok ip lo hi wc cc (properties_json r) = true
                    ∧ item = row_to_response iso r).
Proof.
  intros ->%list_strings_ret. simpl. split; [done|]. split.
  - unfold len. rewrite length_map.
    pose proof (List.filter_length_le
                  (fun r => row_ok ip lo hi wc cc (properties_json r)) db).
    lia.
  - intros item. rewrite list_elem_of_In, in_map_iff. split.
    + intros (r & <- & [Hin Hok]%filter_In). exists r.
      by rewrite list_elem_of_In.
    + intros (r & Hin & Hok & ->). exists r. split; [done|].
      apply filter_In. by rewrite <- list_elem_of_In.
Qed.

(** X15: in an answer of [list_strings], [filters_applied] reads back each
    filter that was given, under its name, and holds no other key. *)
Theorem list_strings_filters_applied {datetime} (iso : datetime → str)
    ip lo hi wc cc db resp :
  list_strings iso ip lo hi wc cc db = ret resp →
  filters_applied resp !! "is_palindrome" = VBool <$> ip
  ∧ filters_applied resp !! "min_length" = VInt <$> lo
  ∧ filters_applied resp !! "max_length" = VInt <$> hi
  ∧ filters_applied resp !! "word_count" = VInt <$> wc
  ∧ filters_applied resp !! "contains_character" = VStr <$> cc
  ∧ (∀ k, k ∉ ["is_palindrome"; "min_length"; "max_length"; "word_count";
               "contains_character"]
          → filters_applied resp !! k = None).
Proof.
  intros ->%list_strings_ret. simpl.
  repeat split; try by rewrite filters_applied_of_lookup.
  intros k Hk. rewrite !not_elem_of_cons in Hk.
  destruct Hk as (? & ? & ? & ? & ? & _).
  rewrite filters_applied_of_lookup. by repeat case_decide.
Qed.

Lemma from_option_asks_less {A} (f : A → bool) (o' o : option A) :
  asks_less o' o → from_option f true o = true → from_option f true o' = true.
Proof. by intros [->| ->]. Qed.

Lemma row_ok_asks_less ip lo hi wc cc ip' lo' hi' wc' cc' props :
  asks_less ip' ip → asks_less lo' lo → asks_less hi' hi →
  asks_less wc' wc → asks_less cc' cc →
  row_ok ip lo hi wc cc props = true → row_ok ip' lo' hi' wc' cc' props = true.
Proof.
  intros H1 H2 H3 H4 H5. rewrite !row_ok_andb, !andb_true_iff.
  intros ((((?&?)&?)&?)&?).
  repeat split; by eapply from_option_asks_less.
Qed.

Lemma filter_sublist {A} (f g : A → bool) (l : list A) :
  (∀ x, f x = true → g x = true) →
  List.filter f l `sublist_of` List.filter g l.
Proof.
  intros Hfg. induction l as [|x l IH]; simpl; [constructor|].
  destruct (f x) eqn:Hf.
  - rewrite (Hfg x Hf). by constructor.
  - destruct (g x); [by constructor|done].
Qed.

(** X16: leaving filters out never loses a row: when [list_strings] answers
    under some filters it answers under any part of them, with a [data] of
    which the first one is a sub-list. *)
Theorem list_strings_fewer_filters {datetime} (iso : datetime → str)
    ip lo hi wc cc ip' lo' hi' wc' cc' db resp :
  asks_less ip' ip → asks_less lo' lo → asks_less hi' hi →
  asks_less wc' wc → asks_less cc' cc →
  list_strings iso ip lo hi wc cc db = ret resp →
  ∃ resp', list_strings iso ip' lo' hi' wc' cc' db = ret resp'
           ∧ data resp `sublist_of` data resp'.
Proof.
  intros H1 H2 H3 H4 H5 Hr.
  assert (∃ resp', list_strings iso ip' lo' hi' wc' cc' db = ret resp')
    as [resp' Hr'].
  { revert Hr. unfold list_strings.
    destruct H2 as [->| ->], H3 as [->| ->]; try (intros _; by eexists);
      destruct lo as [a|], hi as [h|]; try (intros _; by eexists).
    destruct (a >? h); [done|]. intros _. by eexists. }
  exists resp'. split; [done|].
  apply list_strings_ret in Hr as ->. apply list_strings_ret in Hr' as ->.
  simpl. apply (fmap_sublist (row_to_response iso)), filter_sublist.
  intros r. by apply row_ok_asks_less.
Qed.

(** ** Listing from a natural-language query *)

(** Read at the types of the parameters of [list_strings], the filters of
    the translator lose nothing. *)
Lemma apply_rules_typed s d :
  apply_rules s = ret d →
  VBool <$> get_bool d "is_palindrome" = d !! "is_palindrome"
  ∧ VInt <$> get_int d "min_length" = d !! "min_length"
  ∧ get_int d "max_length" = None
  ∧ VInt <$> get_int d "word_count" = d !! "word_count"
  ∧ VStr <$> get_str d "contains_character" = d !! "contains_character".
Proof.
  intros Hd. unfold get_bool, get_int, get_str.
  rewrite (apply_rules_max_length _ _ Hd). repeat split.
  - destruct (d !! "is_palindrome") as [v|] eqn:E; [|done].
    apply (apply_rules_entry _ _ _ _ Hd) in E.
    by destruct E as [[? _]|[[? _]|[[_ ->]|[? _]]]].
  - destruct (d !! "min_length") as [v|] eqn:E; [|done].
    apply (apply_rules_entry _ _ _ _ Hd) in E.
    by destruct E as [[? _]|[[_ (n & -> & _)]|[[? _]|[? _]]]].
  - destruct (d !! "word_count") as [v|] eqn:E; [|done].
    apply (apply_rules_entry _ _ _ _ Hd) in E.
    by destruct E as [[_ ->]|[[? _]|[[? _]|[? _]]]].
  - destruct (d !! "contains_character") as [v|] eqn:E; [|done].
    apply (apply_rules_entry _ _ _ _ Hd) in E.
    by destruct E as [[? _]|[[? _]|[[? _]|[_ (c & -> & _)]]]].
Qed.

(** An occurrence of [w] in a text cut at a character that [w] does not
    hold lies on one side of the cut. *)
Lemma contains_cut w a c b :
  c ∉ w → contains w (a ++ c :: b) → contains w a ∨ contains w b.
Proof.
  intros Hc (pre & post & E).
  apply app_eq_app in E as [l [[-> E]|[-> E]]].
  - apply app_eq_app in E as [l' [[-> E]|[-> E]]].
    + destruct l' as [|c' l'].
      * left. exists pre, []. by rewrite !app_nil_r.
      * injection E as <- _. destruct Hc.
        apply elem_of_app. right. by left.
    + left. by exists pre, l'.
  - destruct l as [|c' l].
    + destruct w as [|c' w].
      * left. exists a, []. by rewrite app_nil_r.
      * injection E as <- _. destruct Hc. by left.
    + injection E as _ ->. right. by exists l, post.
Qed.

Lemma contains_skip w ds b :
  Forall (fun c => c ∉ w) ds → contains w (ds ++ b) → contains w b.
Proof.
  induction 1 as [|c ds Hc _ IH]; [done|]. intros H.
  apply (contains_cut w [] c (ds ++ b) Hc) in H as [H|H]; [|by apply IH].
  destruct H as (pre & post & E). symmetry in E.
  apply app_eq_nil in E as [_ E]. apply app_eq_nil in E as [-> _].
  by exists [], b.
Qed.

Lemma contains_apart w a ds b :
  Forall (fun c => c ∉ w) ds → contains w (a ++ ds ++ b) →
  contains w a ∨ contains w b ∨ contains w (a ++ b).
Proof.
  intros Hds H. destruct ds as [|c ds]; [by do 2 right|].
  apply Forall_cons in Hds as [Hc Hds].
  apply (contains_cut w a c (ds ++ b) Hc) in H as [H|H]; [by left|].
  right. left. by apply (contains_skip w ds).
Qed.

Lemma string_of_uint_digits d :
  Forall (fun c => isdigit c = true)
    (list_ascii_of_string (NilZero.string_of_uint d)).
Proof.
  assert (∀ d', Forall (fun c => isdigit c = true)
                  (list_ascii_of_string (NilEmpty.string_of_uint d'))) as H.
  { induction d'; simpl; by constructor. }
  destruct d; try apply H. by repeat constructor.
Qed.

Lemma isdigit_not_in_conflicting c :
  isdigit c = true → c ∉ lit "conflicting".
Proof.
  intros H Hin. cbv [lit list_ascii_of_string] in Hin.
  rewrite !elem_of_cons, elem_of_nil in Hin.
  repeat (destruct Hin as [->|Hin]; [vm_compute in H; discriminate H|]).
  exact Hin.
Qed.

(** The message of [int] does not hold "conflicting", whatever the number of
    digits it reports. *)
Lemma int_limit_no_conflict_word n :
  str_in (lit "conflicting") (lower (int_limit_message n)) = false.
Proof.
  apply not_true_is_false. rewrite str_in_contains.
  unfold int_limit_message, str_of_nat.
  rewrite !lower_app, (lower_digits _ (string_of_uint_digits _)).
  intros H. apply contains_apart in H.
  - rewrite <- !str_in_contains in H.
    destruct H as [H|[H|H]]; vm_compute in H; discriminate H.
  - eapply Forall_impl; [apply string_of_uint_digits|].
    intros c. apply isdigit_not_in_conflicting.
Qed.

Lemma some_rule_matched_dec s : some_rule_matched s ∨ ¬ some_rule_matched s.
Proof.
  destruct (re_search re_single_word s) eqn:E1.
  { left. left. apply search_single_word. by eexists. }
  destruct (re_search re_longer_than s) eqn:E2.
  { left. right. left. apply search_longer_than_is_Some. by eexists. }
  destruct (str_in (lit "palindrom") s) eqn:E3.
  { left. do 2 right. left. by apply str_in_contains. }
  destruct (re_search re_letter s) eqn:E4.
  { left. do 3 right. left. apply search_letter_is_Some. by eexists. }
  destruct (re_search re_first_vowel s) eqn:E5.
  { left. do 4 right. apply search_first_vowel. by eexists. }
  right. by apply some_rule_matched_search.
Qed.

(** [nl_filter] on a query whose rules ran to their end. *)
Lemma nl_filter_rules {datetime} (iso : datetime → str) q db d :
  apply_rules (lower q) = ret d →
  nl_filter iso q db
  = if bool_decide (d = ∅)
    then raise (HTTPException 400
                  (lit "Unable to parse natural language query"))
    else
      result ←
        list_strings iso (get_bool d "is_palindrome")
          (get_int d "min_length") None
          (get_int d "word_count")
          (get_str d "contains_character") db;
      ret {| nl_result := result;
             interpreted_original := q;
             interpreted_parsed_filters := d |}.
Proof.
  intros Hd. unfold nl_filter. rewrite (parse_nl_query_rules q d Hd).
  case_bool_decide; [done|]. simpl.
  by rewrite (proj1 (proj2 (proj2 (apply_rules_typed _ _ Hd)))).
Qed.

(** [nl_filter] on a query whose number [int] refuses: the [ValueError] of
    [int] becomes a 400 with its message. *)
Lemma nl_filter_too_long {datetime} (iso : datetime → str) q db pre ds :
  longer_than_at pre (lower q) ds → first_longer_than pre (lower q) →
  4300 < len ds →
  nl_filter iso q db
  = raise (HTTPException 400 (int_limit_message (length ds))).
Proof.
  intros Hat Hf Hl. unfold nl_filter.
  rewrite (translate_too_long q pre ds Hat Hf Hl).
  cbv beta iota zeta delta [raise exn_str].
  by rewrite int_limit_no_conflict_word.
Qed.

(** X17: [nl_filter] ends in one of three ways: with a 400 that carries the
    parse error of the translator, exactly when no rule finds what it looks
    for in the lower-cased query; with a 400 that carries the message of
    [int], when the number behind the first "longer than " has more than
    4300 digits; or with an answer.  It never raises a 422, that of
    conflicting filters included, nor the 400 of crossed bounds. *)
Theorem nl_filter_outcome {datetime} (iso : datetime → str) q db :
  ((¬ some_rule_matched (lower q)
    ∧ nl_filter iso q db
      = raise (HTTPException 400
                 (lit "Unable to parse natural language query")))
   ∨ (∃ pre ds,
        longer_than_at pre (lower q) ds ∧ first_longer_than pre (lower q)
        ∧ 4300 < len ds
        ∧ nl_filter iso q db
          = raise (HTTPException 400 (int_limit_message (length ds))))
   ∨ (some_rule_matched (lower q) ∧ ¬ number_too_long (lower q)
      ∧ ∃ r, nl_filter iso q db = ret r))
  ∧ (∀ detail, nl_filter iso q db ≠ raise (HTTPException 422 detail))
  ∧ nl_filter iso q db ≠ raise BoundsError.
Proof.
  assert ((¬ some_rule_matched (lower q)
           ∧ nl_filter iso q db
             = raise (HTTPException 400
                        (lit "Unable to parse natural language query")))
          ∨ (∃ pre ds,
               longer_than_at pre (lower q) ds
               ∧ first_longer_than pre (lower q)
               ∧ 4300 < len ds
               ∧ nl_filter iso q db
                 = raise (HTTPException 400 (int_limit_message (length ds))))
          ∨ (some_rule_matched (lower q) ∧ ¬ number_too_long (lower q)
             ∧ ∃ r, nl_filter iso q db = ret r)) as H.
  { destruct (number_too_long_dec (lower q))
      as [(pre & ds & Hat & Hf & Hl)|Hn].
    - right. left. exists pre, ds. split; [done|]. split; [done|].
      split; [done|]. by apply (nl_filter_too_long iso q db pre ds).
    - destruct (translate_fits q Hn) as [d Hd].
      rewrite (nl_filter_rules iso q db d Hd). case_bool_decide as E.
      + left. split; [|done]. by apply (rules_empty q d Hd).
      + right. right. split; [|split; [done|]].
        * destruct (some_rule_matched_dec (lower q)) as [H|H]; [done|].
          destruct E. by apply (rules_empty q d Hd).
        * unfold list_strings.
          destruct (get_int d "min_length"); by eexists. }
  split; [exact H|].
  destruct H as [[_ ->]|[(pre & ds & _ & _ & _ & ->)|(_ & _ & r & ->)]].
  - split; [intros detail|]; intros E; discriminate E.
  - split; [intros detail|]; intros E; unfold raise in E;
      injection E as E; [discriminate E|].
    unfold int_limit_message in E. discriminate E.
  - split; [intros detail|]; intros E; discriminate E.
Qed.

(** X18: an answer of [nl_filter] repeats the query under
    [interpreted_query], with the filters the translator returned for it;
    its [filters_applied] are these same filters, and the rest of it is the
    answer of [list_strings] under them. *)
Theorem nl_filter_answer {datetime} (iso : datetime → str) q db r :
  nl_filter iso q db = ret r →
  interpreted_original r = q
  ∧ parse_nl_query q = ret (interpreted_parsed_filters r)
  ∧ filters_applied (nl_result r) = interpreted_parsed_filters r
  ∧ list_strings iso
      (get_bool (interpreted_parsed_filters r) "is_palindrome")
      (get_int (interpreted_parsed_filters r) "min_length")
      (get_int (interpreted_parsed_filters r) "max_length")
      (get_int (interpreted_parsed_filters r) "word_count")
      (get_str (interpreted_parsed_filters r) "contains_character") db
    = ret (nl_result r).
Proof.
  intros H.
  assert (∃ d, apply_rules (lower q) = ret d) as [d Hd].
  { destruct (number_too_long_dec (lower q))
      as [(pre & ds & Hat & Hf & Hl)|Hn]; [|by apply translate_fits].
    by rewrite (nl_filter_too_long iso q db pre ds Hat Hf Hl) in H. }
  revert H.
  rewrite (nl_filter_rules iso q db d Hd), (parse_nl_query_rules q d Hd).
  case_bool_decide as E; [done|].
  destruct (list_strings iso _ _ _ _ _ db) as [e|resp] eqn:Hl; [done|].
  intros [= <-]. simpl.
  destruct (apply_rules_typed _ _ Hd) as (T1 & T2 & T3 & T4 & T5).
  rewrite T3. repeat split; try done.
  apply list_strings_ret in Hl as ->. simpl.
  apply map_eq. intros k. rewrite filters_applied_of_lookup.
  repeat case_decide; subst; try done.
  - by rewrite (apply_rules_max_length _ _ Hd).
  - destruct (d !! k) eqn:Hk; [|done].
    assert (is_Some (d !! k)) as Hs by by eexists.
    apply (apply_rules_keys _ _ _ Hd) in Hs.
    rewrite !elem_of_cons, elem_of_nil in Hs. tauto.
Qed.

(** ** The handlers over the table *)

Section HandlerFacts.

Context {datetime : Type}.
Variable iso : datetime → str.
Variable sha : str → str.

Implicit Types (db : list (StringEntry datetime)) (r : StringEntry datetime).

Lemma NoDup_map_inj {B} `{EqDecision B} (g : StringEntry datetime → B) db r r' :
  NoDup (map g db) → r ∈ db → r' ∈ db → g r = g r' → r = r'.
Proof.
  induction db as [|x db IH]; simpl; [by intros _ ?%elem_of_nil|].
  rewrite NoDup_cons, !elem_of_cons. intros [Hx Hnd] [->|Hr] [->|Hr'] E.
  - done.
  - destruct Hx. rewrite E. apply list_elem_of_In, in_map.
    by apply list_elem_of_In.
  - destruct Hx. rewrite <- E. apply list_elem_of_In, in_map.
    by apply list_elem_of_In.
  - by apply IH.
Qed.

Lemma first_by_value_None v db :
  first_by_value v db = None ↔ ∀ r, r ∈ db → value_ r ≠ v.
Proof.
  unfold first_by_value. split.
  - intros H r Hr E. apply list_elem_of_In in Hr.
    apply (find_none _ _ H) in Hr. by rewrite bool_decide_eq_true_2 in Hr.
  - intros H. destruct (find _ db) as [r|] eqn:E; [|done].
    apply find_some in E as [Hin Hv]. apply bool_decide_eq_true in Hv.
    destruct (H r); [by apply list_elem_of_In|done].
Qed.

Lemma first_by_id_None v db :
  first_by_id v db = None ↔ ∀ r, r ∈ db → id_ r ≠ v.
Proof.
  unfold first_by_id. split.
  - intros H r Hr E. apply list_elem_of_In in Hr.
    apply (find_none _ _ H) in Hr. by rewrite bool_decide_eq_true_2 in Hr.
  - intros H. destruct (find _ db) as [r|] eqn:E; [|done].
    apply find_some in E as [Hin Hv]. apply bool_decide_eq_true in Hv.
    destruct (H r); [by apply list_elem_of_In|done].
Qed.

Lemma first_by_value_Some v db r :
  first_by_value v db = Some r → r ∈ db ∧ value_ r = v.
Proof.
  intros [Hin Hv]%find_some. apply bool_decide_eq_true in Hv.
  by rewrite list_elem_of_In.
Qed.

Lemma first_by_id_Some v db r :
  first_by_id v db = Some r → r ∈ db ∧ id_ r = v.
Proof.
  intros [Hin Hv]%find_some. apply bool_decide_eq_true in Hv.
  by rewrite list_elem_of_In.
Qed.

Lemma first_by_value_unique db r :
  keys_unique db → r ∈ db → first_by_value (value_ r) db = Some r.
Proof.
  intros [_ Hnd] Hr.
  destruct (first_by_value (value_ r) db) as [r'|] eqn:E.
  - apply first_by_value_Some in E as [Hr' Hv]. f_equal.
    by apply (NoDup_map_inj value_ db).
  - rewrite first_by_value_None in E. by destruct (E r Hr).
Qed.

Lemma first_by_id_unique db r :
  keys_unique db → r ∈ db → first_by_id (id_ r) db = Some r.
Proof.
  intros [Hnd _] Hr.
  destruct (first_by_id (id_ r) db) as [r'|] eqn:E.
  - apply first_by_id_Some in E as [Hr' Hv]. f_equal.
    by apply (NoDup_map_inj id_ db).
  - rewrite first_by_id_None in E. by destruct (E r Hr).
Qed.

Lemma lookup_row_Some x db r :
  lookup_row x db = Some r → r ∈ db ∧ (value_ r = x ∨ id_ r = x).
Proof.
  unfold lookup_row. destruct (first_by_value x db) as [r'|] eqn:E.
  - intros [= <-]. apply first_by_value_Some in E as [? ?]. auto.
  - intros [? ?]%first_by_id_Some. auto.
Qed.

Lemma lookup_row_None x db :
  lookup_row x db = None ↔ ∀ r, r ∈ db → value_ r ≠ x ∧ id_ r ≠ x.
Proof.
  unfold lookup_row. destruct (first_by_value x db) as [r'|] eqn:E.
  - split; [done|]. intros H. apply first_by_value_Some in E as [Hin Hv].
    by destruct (H r' Hin) as [? _].
  - rewrite first_by_id_None. rewrite first_by_value_None in E.
    split; [intros H r Hr; split; auto|intros H r Hr; by apply H].
Qed.

(** The row [create_string] writes for [v] at [now]. *)
Lemma create_string_unfold now v db :
  create_string iso sha now v db
  = match first_by_id (sha v) db with
    | Some _ =>
        inl (Raised (HTTPException 409
                       (lit "String already exists in the system")))
    | None =>
        let row := {| id_ := sha v; value_ := v;
                      properties_json := compute_properties sha v;
                      created_at := now |} in
        match add_commit row db with
        | None => inl IntegrityError
        | Some db' => inr (db', row_to_response iso row)
        end
    end.
Proof. reflexivity. Qed.

Lemma add_commit_genuine now v db :
  rows_genuine sha db → first_by_id (sha v) db = None →
  add_commit {| id_ := sha v; value_ := v;
                properties_json := compute_properties sha v;
                created_at := now |} db
  = Some (db ++ [{| id_ := sha v; value_ := v;
                    properties_json := compute_properties sha v;
                    created_at := now |}]).
Proof.
  intros Hg Hid. unfold add_commit.
  destruct (existsb _ db) eqn:E; [|done].
  apply existsb_exists in E as (r & Hin & Hr). simpl in Hr.
  apply list_elem_of_In in Hin. rewrite first_by_id_None in Hid.
  specialize (Hid r Hin). unfold rows_genuine in Hg.
  rewrite Forall_forall in Hg. destruct (Hg r Hin) as [Hi _].
  apply orb_true_iff in Hr as [Hr|Hr]; apply bool_decide_eq_true in Hr.
  - done.
  - destruct Hid. by rewrite Hi, Hr.
Qed.

(** X19: on a table whose rows [create_string] wrote, [create_string] never
    ends in an [IntegrityError]: it raises its 409 exactly when a row
    already has the hash of the value as [id], so whenever the value is
    already stored, and otherwise appends one row and answers with the hash,
    the value and the properties of the value. *)
Theorem create_string_outcome now v db :
  rows_genuine sha db →
  create_string iso sha now v db ≠ inl IntegrityError
  ∧ ((∃ r, r ∈ db ∧ value_ r = v) →
     create_string iso sha now v db
     = inl (Raised (HTTPException 409
                      (lit "String already exists in the system"))))
  ∧ (create_string iso sha now v db
     = inl (Raised (HTTPException 409
                      (lit "String already exists in the system")))
     ↔ ∃ r, r ∈ db ∧ id_ r = sha v)
  ∧ ((∀ r, r ∈ db → id_ r ≠ sha v) →
     ∃ row, create_string iso sha now v db
            = inr (db ++ [row], row_to_response iso row)
            ∧ id_ row = sha v ∧ value_ row = v
            ∧ properties_json row = compute_properties sha v
            ∧ created_at row = now).
Proof.
  intros Hg. rewrite create_string_unfold.
  destruct (first_by_id (sha v) db) as [r0|] eqn:E.
  - apply first_by_id_Some in E as [Hin Hid].
    split; [done|]. split; [done|]. split; [split; [by exists r0|done]|].
    intros H. by destruct (H r0 Hin).
  - cbv zeta. rewrite (add_commit_genuine now v db Hg E).
    pose proof E as E'. rewrite first_by_id_None in E'.
    split; [done|]. split; [|split].
    + intros (r & Hin & Hv). destruct (E' r Hin).
      unfold rows_genuine in Hg. rewrite Forall_forall in Hg.
      destruct (Hg r Hin) as [Hi _]. by rewrite Hi, Hv.
    + split; [done|]. intros (r & Hin & Hid). by destruct (E' r Hin).
    + intros _. by eexists.
Qed.

Lemma create_string_inr now v db db' resp :
  create_string iso sha now v db = inr (db', resp) →
  first_by_id (sha v) db = None
  ∧ db' = db ++ [{| id_ := sha v; value_ := v;
                    properties_json := compute_properties sha v;
                    created_at := now |}]
  ∧ resp = row_to_response iso
             {| id_ := sha v; value_ := v;
                properties_json := compute_properties sha v;
                created_at := now |}.
Proof.
  rewrite create_string_unfold.
  destruct (first_by_id (sha v) db) eqn:E; [done|]. cbv zeta.
  unfold add_commit. destruct (existsb _ db); [done|].
  by intros [= <- <-].
Qed.

(** X20: a value cannot be created twice: once [create_string] has stored
    it, [create_string] on the new table raises its 409 for it. *)
Theorem create_string_twice now now' v db db' resp :
  create_string iso sha now v db = inr (db', resp) →
  create_string iso sha now' v db'
  = inl (Raised (HTTPException 409
                   (lit "String already exists in the system"))).
Proof.
  intros (_ & -> & _)%create_string_inr. rewrite create_string_unfold.
  destruct (first_by_id (sha v) _) eqn:E; [done|].
  rewrite first_by_id_None in E. exfalso.
  eapply E; [apply elem_of_app; right; apply list_elem_of_here|done].
Qed.

Lemma delete_commit_elem r r' db :
  r' ∈ delete_commit r db ↔ r' ∈ db ∧ id_ r' ≠ id_ r.
Proof.
  unfold delete_commit. rewrite !list_elem_of_In, filter_In.
  rewrite negb_true_iff, bool_decide_eq_false. done.
Qed.

Lemma NoDup_map_filter {B} (g : StringEntry datetime → B) f db :
  NoDup (map g db) → NoDup (map g (List.filter f db)).
Proof.
  induction db as [|x db IH]; simpl; [done|].
  rewrite NoDup_cons. intros [Hx Hnd]. destruct (f x); simpl; [|by apply IH].
  apply NoDup_cons. split; [|by apply IH].
  intros Hin. apply Hx. apply list_elem_of_In, in_map_iff in Hin.
  destruct Hin as (y & <- & [Hy _]%filter_In).
  by apply list_elem_of_In, in_map.
Qed.

(** X21: the handlers keep the table in order: after a [create_string] that
    succeeds and after a [delete_string] that succeeds, no two rows share an
    [id] or a [value], and every row is as [create_string] writes it, when
    that held before. *)
Theorem handlers_keep_table now v x db :
  keys_unique db → rows_genuine sha db →
  (∀ db' resp, create_string iso sha now v db = inr (db', resp) →
               keys_unique db' ∧ rows_genuine sha db')
  ∧ (∀ db', delete_string x db = ret db' →
            keys_unique db' ∧ rows_genuine sha db').
Proof.
  intros [Hid Hval] Hg. split.
  - intros db' resp (E & -> & _)%create_string_inr.
    rewrite first_by_id_None in E.
    pose proof Hg as Hg'. unfold rows_genuine in Hg'.
    rewrite Forall_forall in Hg'.
    split; [split|].
    + rewrite map_app. apply NoDup_app. split; [done|]. simpl.
      split; [|apply NoDup_singleton].
      intros y Hy [->|[]%elem_of_nil]%elem_of_cons.
      apply list_elem_of_In, in_map_iff in Hy as (r & Hr & Hin).
      apply list_elem_of_In in Hin. by destruct (E r Hin).
    + rewrite map_app. apply NoDup_app. split; [done|]. simpl.
      split; [|apply NoDup_singleton].
      intros y Hy [->|[]%elem_of_nil]%elem_of_cons.
      apply list_elem_of_In, in_map_iff in Hy as (r & Hr & Hin).
      apply list_elem_of_In in Hin. destruct (E r Hin).
      destruct (Hg' r Hin) as [-> _]. by rewrite Hr.
    + apply Forall_app. split; [done|]. by repeat constructor.
  - unfold delete_string.
    destruct (lookup_row x db) as [r|]; [|done]. intros db' [= <-].
    split; [split|]; unfold delete_commit.
    + by apply NoDup_map_filter.
    + by apply NoDup_map_filter.
    + unfold rows_genuine in *. rewrite Forall_forall in Hg.
      apply Forall_forall. intros r' Hr'.
      apply list_elem_of_In, filter_In in Hr' as [Hr' _].
      by apply Hg, list_elem_of_In.
Qed.

(** X22: [get_string] looks a value up before a hash: on a table with
    unique keys it answers with the row whose [value] is the argument if
    there is one, otherwise with the row whose [id] is the argument, and
    raises its 404 exactly when no row has the argument as [value] or as
    [id]. *)
Theorem get_string_lookup x db :
  keys_unique db →
  (∀ r, r ∈ db → value_ r = x →
        get_string iso x db = ret (row_to_response iso r))
  ∧ (∀ r, r ∈ db → id_ r = x → (∀ r', r' ∈ db → value_ r' ≠ x) →
          get_string iso x db = ret (row_to_response iso r))
  ∧ (get_string iso x db
     = raise (HTTPException 404 (lit "String does not exist in the system"))
     ↔ ∀ r, r ∈ db → value_ r ≠ x ∧ id_ r ≠ x).
Proof.
  intros Hk. unfold get_string, lookup_row. split; [|split].
  - intros r Hr <-. by rewrite (first_by_value_unique db r).
  - intros r Hr <- Hn. apply first_by_value_None in Hn. rewrite Hn.
    by rewrite (first_by_id_unique db r).
  - fold (lookup_row x db). rewrite <- lookup_row_None.
    by destruct (lookup_row x db).
Qed.

Lemma first_by_value_app v db db2 :
  first_by_value v db = None →
  first_by_value v (db ++ db2) = first_by_value v db2.
Proof.
  unfold first_by_value. induction db as [|r db IH]; simpl; [done|].
  by destruct (bool_decide (value_ r = v)).
Qed.

Lemma create_string_fresh_value v db :
  rows_genuine sha db → first_by_id (sha v) db = None →
  first_by_value v db = None.
Proof.
  intros Hg E. apply first_by_value_None. intros r Hr Hrv.
  rewrite first_by_id_None in E. destruct (E r Hr).
  unfold rows_genuine in Hg. rewrite Forall_forall in Hg.
  destruct (Hg r Hr) as [-> _]. by rewrite Hrv.
Qed.

(** X23: what [create_string] stores, [get_string] finds under the value:
    after a [create_string] that succeeds on a table whose rows
    [create_string] wrote, [get_string] of the value gives the answer
    [create_string] gave, which carries the value, its hash and its
    properties. *)
Theorem create_then_get now v db db' resp :
  rows_genuine sha db →
  create_string iso sha now v db = inr (db', resp) →
  get_string iso v db' = ret resp
  ∧ response_value resp = v
  ∧ response_id resp = sha v
  ∧ response_properties resp = compute_properties sha v.
Proof.
  intros Hg (E & -> & ->)%create_string_inr.
  split; [|done]. unfold get_string, lookup_row.
  rewrite first_by_value_app by by apply create_string_fresh_value.
  unfold first_by_value. simpl. by rewrite bool_decide_eq_true_2.
Qed.

(** X24: [delete_string] undoes [create_string]: after a [create_string]
    that succeeds on a table whose rows [create_string] wrote,
    [delete_string] of the value gives the table back as it was. *)
Theorem create_then_delete now v db db' resp :
  rows_genuine sha db →
  create_string iso sha now v db = inr (db', resp) →
  delete_string v db' = ret db.
Proof.
  intros Hg (E & -> & ->)%create_string_inr.
  unfold delete_string, lookup_row.
  rewrite first_by_value_app by by apply create_string_fresh_value.
  unfold first_by_value. simpl.
  rewrite bool_decide_eq_true_2 by done. unfold ret. f_equal.
  unfold delete_commit. rewrite List.filter_app. simpl.
  rewrite bool_decide_eq_true_2 by done. simpl. rewrite app_nil_r.
  apply forallb_filter_id. apply forallb_forall. intros r Hr.
  apply list_elem_of_In in Hr. rewrite first_by_id_None in E.
  apply negb_true_iff, bool_decide_eq_false. by apply E.
Qed.

(** X25: on a table with unique keys a [delete_string] that succeeds
    removes exactly the row it looked up, by value first and by hash
    otherwise: that row is gone, every other row stays, and the table is
    one row shorter; it raises its 404 and removes nothing exactly when no
    row has the argument as [value] or as [id]. *)
Theorem delete_string_effect x db :
  keys_unique db →
  (∀ db', delete_string x db = ret db' →
          ∃ r, lookup_row x db = Some r
               ∧ r ∈ db ∧ (value_ r = x ∨ id_ r = x)
               ∧ (∀ r', r' ∈ db' ↔ r' ∈ db ∧ r' ≠ r)
               ∧ length db = S (length db'))
  ∧ (delete_string x db
     = raise (HTTPException 404 (lit "String does not exist in the system"))
     ↔ ∀ r, r ∈ db → value_ r ≠ x ∧ id_ r ≠ x).
Proof.
  intros Hk. unfold delete_string. split.
  - intros db'. destruct (lookup_row x db) as [r|] eqn:E; [|done].
    intros [= <-]. exists r. split; [done|].
    apply lookup_row_Some in E as [Hr Hx]. split; [done|]. split; [done|].
    split.
    + intros r'. rewrite delete_commit_elem. split.
      * intros [Hr' Hne]. split; [done|]. by intros ->.
      * intros [Hr' Hne]. split; [done|]. intros Hid. apply Hne.
        destruct Hk as [Hid' _]. by apply (NoDup_map_inj id_ db).
    + destruct Hk as [Hid _]. clear Hx. unfold delete_commit.
      induction db as [|y db IH]; [by apply elem_of_nil in Hr|].
      simpl in Hid. apply NoDup_cons in Hid as [Hy Hid]. simpl.
      apply elem_of_cons in Hr as [->|Hr].
      * rewrite bool_decide_eq_true_2 by done. simpl. f_equal.
        rewrite forallb_filter_id; [done|]. apply forallb_forall.
        intros z Hz. apply negb_true_iff, bool_decide_eq_false.
        intros Hzy. apply Hy. rewrite <- Hzy.
        by apply list_elem_of_In, in_map.
      * rewrite bool_decide_eq_false_2.
        { simpl. f_equal. by apply IH. }
        intros Hyr. apply Hy. rewrite Hyr.
        by apply list_elem_of_In, in_map, list_elem_of_In.
  - rewrite <- lookup_row_None. by destruct (lookup_row x db).
Qed.

End HandlerFacts.

(** ** The routes *)

Lemma full_match_Lit w p g : full_match (Lit w) p = Some g → p = w.
Proof.
  unfold full_match. simpl. case_bool_decide as Hp; [|done]. simpl.
  case_bool_decide as Hd; [|done]. intros _. destruct Hp as [k ->].
  rewrite drop_app_length in Hd. by rewrite Hd, app_nil_r.
Qed.

Lemma full_match_param x :
  x ≠ [] → Forall (fun c => not_slash c = true) x →
  full_match (Cat (Lit (lit "/strings/")) path_param) (lit "/strings/" ++ x)
  = Some (Some x).
Proof.
  intros Hne Hx.
  destruct (plus_cls_greedy not_slash x [] Hne Hx I) as [rest Hrest].
  rewrite app_nil_r in Hrest.
  unfold full_match, path_param. cbn [rmatch].
  rewrite bool_decide_eq_true_2 by by eexists.
  rewrite drop_app_length. cbn [flat_map]. rewrite Hrest. by cbn.
Qed.

(** X26: a GET or DELETE request for [/strings/] followed by one or more
    characters other than the slash reaches [get_string] or
    [delete_string] with these characters as [string_value]; so
    [GET /strings/filter-by-natural-language] reaches [get_string], whose
    route stands first, and no request at all reaches [nl_filter]. *)
Theorem routes_shadow_nl_filter :
  (∀ x, x ≠ [] → Forall (fun c => not_slash c = true) x →
        dispatch GET (lit "/strings/" ++ x) = Some (ep_get_string, Some x)
        ∧ dispatch DELETE (lit "/strings/" ++ x)
          = Some (ep_delete_string, Some x))
  ∧ dispatch GET (lit "/strings/filter-by-natural-language")
    = Some (ep_get_string, Some (lit "filter-by-natural-language"))
  ∧ (∀ m p g, dispatch m p ≠ Some (ep_nl_filter, g)).
Proof.
  split; [|split].
  - intros x Hne Hx. unfold dispatch, routes. cbn [dispatch_in].
    rewrite !(bool_decide_eq_false_2 (POST = _)) by done.
    rewrite !(bool_decide_eq_true_2 (GET = GET)) by done.
    rewrite !(bool_decide_eq_false_2 (GET = DELETE)) by done.
    rewrite !(bool_decide_eq_true_2 (DELETE = DELETE)) by done.
    by rewrite (full_match_param x Hne Hx).
  - by vm_compute.
  - intros m p g. unfold dispatch, routes. cbn [dispatch_in].
    destruct (bool_decide (POST = m));
      [destruct (full_match (Lit (lit "/strings")) p); [done|]|].
    all: destruct (bool_decide (GET = m)).
    all: try (destruct (full_match (Cat (Lit (lit "/strings/")) path_param) p)
                eqn:E2; [done|]).
    all: try (destruct (full_match (Lit (lit "/strings")) p); [done|]).
    all: try (destruct (full_match
                          (Lit (lit "/strings/filter-by-natural-language")) p)
                eqn:E4;
              [apply full_match_Lit in E4 as ->; by vm_compute in E2|]).
    all: destruct (bool_decide (DELETE = m)).
    all: try (destruct (full_match (Cat (Lit (lit "/strings/")) path_param) p);
              [done|]).
    all: try (destruct (full_match (Lit (lit "/")) p); done).
    all: done.
Qed.

(** ** The further properties at concrete inputs *)

(** X1 at "hello" and the key "l". *)
Lemma compute_character_frequency_witness :
  let freq :=
    character_frequency_map (compute_properties (fun _ => []) (lit "hello")) in
  freq !! lit "l" = Some 2 ∧ 1 <= 2.
Proof.
  intros freq.
  assert (freq !! lit "l" = Some 2) as H by reflexivity.
  split; [exact H|].
  apply (proj2 (proj2 (compute_character_frequency (fun _ => []) (lit "hello")))
           (lit "l") 2 H).
Defined.

(** X4 at a string of two spaces. *)
Lemma compute_word_count_zero_witness :
  blank (lit "  ")
  ∧ word_count (compute_properties (fun _ => []) (lit "  ")) = 0.
Proof.
  assert (blank (lit "  ")) as H by (by repeat constructor).
  split; [exact H|].
  apply (proj2 (compute_word_count_zero (fun _ => []) (lit "  ")) H).
Defined.

(** X5 at "LeVel" and "level". *)
Lemma compute_is_palindrome_invariant_witness :
  lower (lit "LeVel") = lower (lit "level")
  ∧ is_palindrome (compute_properties (fun _ => []) (lit "LeVel"))
    = is_palindrome (compute_properties (fun _ => []) (lit "level")).
Proof.
  assert (lower (lit "LeVel") = lower (lit "level")) as H by reflexivity.
  split; [exact H|].
  apply (proj2 (compute_is_palindrome_invariant (fun _ => []) (lit "level"))
           (lit "LeVel") H).
Defined.

(** X6 at "ab" and "ba". *)
Lemma compute_anagram_witness :
  Permutation (lit "ab") (lit "ba")
  ∧ character_frequency_map (compute_properties (fun _ => []) (lit "ab"))
    = character_frequency_map (compute_properties (fun _ => []) (lit "ba")).
Proof.
  assert (Permutation (lit "ab") (lit "ba")) as H by apply perm_swap.
  split; [exact H|].
  apply (compute_anagram (fun _ => []) _ _ H).
Defined.

(** X8 at "longer than 5" and the key [min_length]. *)
Lemma translate_well_formed_witness :
  let d : gmap string pyval := {["min_length" := VInt 6]} in
  parse_nl_query (lit "longer than 5") = ret d
  ∧ d !! "min_length" = Some (VInt 6)
  ∧ filter_entry "min_length" (VInt 6).
Proof.
  intros d.
  assert (parse_nl_query (lit "longer than 5") = ret d) as H1
    by (vm_compute; reflexivity).
  assert (d !! "min_length" = Some (VInt 6)) as H2 by reflexivity.
  split; [exact H1|]. split; [exact H2|].
  apply (translate_well_formed (lit "longer than 5") d "min_length" (VInt 6)
           H1 H2).
Defined.

(** X9 at "Palindromic words". *)
Lemma translate_palindrome_witness :
  let q := lit "Palindromic words" in
  (contains (lit "palindrom") (lower q) ∧ ¬ number_too_long (lower q))
  ∧ ∃ d, parse_nl_query q = ret d ∧ d !! "is_palindrome" = Some (VBool true).
Proof.
  intros q.
  assert (contains (lit "palindrom") (lower q)
          ∧ ¬ number_too_long (lower q)) as H.
  { split.
    - exists [], (lit "ic words"). reflexivity.
    - apply fits_by_search. reflexivity. }
  split; [exact H|].
  apply (proj2 (proj1 (translate_palindrome q)) H).
Defined.

(** X11 at "Longer than 12 letters". *)
Lemma translate_min_length_present_witness :
  let q := lit "Longer than 12 letters" in
  ((∃ N, longer_than (lower q) N) ∧ ¬ number_too_long (lower q))
  ∧ ∃ d n, parse_nl_query q = ret d ∧ d !! "min_length" = Some (VInt n).
Proof.
  intros q.
  assert ((∃ N, longer_than (lower q) N) ∧ ¬ number_too_long (lower q)) as H.
  { split.
    - exists 12, [], (lit "12"). split; [|reflexivity].
      exists (lit " letters").
      repeat split; try reflexivity; try discriminate. by repeat constructor.
    - intros (m & Hm & Hl)%number_too_long_search.
      vm_compute in Hm. injection Hm as <-. vm_compute in Hl. discriminate Hl. }
  split; [exact H|].
  apply (proj2 (translate_min_length_present q) H).
Defined.

(** X12 at "strings containing the letter z". *)
Lemma translate_letter_witness :
  let q := lit "Strings containing the letter z" in
  letter_at (lit "strings ") (lower q) "z"
  ∧ first_letter_at (lit "strings ") (lower q)
  ∧ ¬ contains (lit "first vowel") (lower q)
  ∧ ¬ number_too_long (lower q)
  ∧ ∃ d, parse_nl_query q = ret d
         ∧ d !! "contains_character" = Some (VStr (lit "z")).
Proof.
  intros q.
  assert (letter_at (lit "strings ") (lower q) "z") as Hat.
  { exists (lit "containing the letter "), []. split; [reflexivity|].
    split; [|reflexivity]. unfold letter_phrases. rewrite !elem_of_cons.
    tauto. }
  assert (first_letter_at (lit "strings ") (lower q)) as Hfirst.
  { intros pre' c' (w & post & E & Hw & _). unfold letter_phrases in Hw.
    rewrite !elem_of_cons, elem_of_nil in Hw.
    destruct Hw as [->|[->|[->|[->|[->|[->|[]]]]]]]; vm_compute in E;
      do 8 (destruct pre' as [|? pre']; [discriminate E|];
            simpl in E; injection E as _ E);
      simpl; lia. }
  assert (¬ contains (lit "first vowel") (lower q)) as Hnv.
  { rewrite <- str_in_contains. vm_compute. discriminate. }
  assert (¬ number_too_long (lower q)) as Hn.
  { apply fits_by_search. reflexivity. }
  split; [exact Hat|]. split; [exact Hfirst|]. split; [exact Hnv|].
  split; [exact Hn|].
  apply (translate_letter q (lit "strings ") "z" Hat Hfirst Hnv Hn).
Defined.

(** X13 at equal bounds. *)
Lemma list_strings_answers_witness :
  (∀ a b, Some 3 = Some a → Some 3 = Some b → a <= b)
  ∧ ∃ resp : ListResponse,
      list_strings (fun _ : unit => []) None (Some 3) (Some 3) None None []
      = ret resp.
Proof.
  assert (∀ a b, Some 3 = Some a → Some 3 = Some b → a <= b) as H.
  { intros a b [= <-] [= <-]. lia. }
  split; [exact H|].
  apply (proj2 (proj1 (list_strings_answers (fun _ : unit => [])
                         None (Some 3) (Some 3) None None [])) H).
Defined.

(** X14 on the sample table, palindromes asked for. *)
Lemma list_strings_data_count_witness :
  ∃ resp,
    list_strings (fun _ : unit => []) (Some true) None None None None
      sample_table = ret resp
    ∧ count resp = len (data resp).
Proof.
  destruct (list_strings (fun _ : unit => []) (Some true) None None None None
              sample_table) as [e|resp] eqn:E; [discriminate E|].
  exists resp. split; [reflexivity|].
  apply (list_strings_data_count (fun _ : unit => [])
           (Some true) None None None None sample_table resp E).
Defined.

(** X15 on the sample table, palindromes asked for. *)
Lemma list_strings_filters_applied_witness :
  ∃ resp,
    list_strings (fun _ : unit => []) (Some true) None None None None
      sample_table = ret resp
    ∧ filters_applied resp !! "is_palindrome" = VBool <$> Some true.
Proof.
  destruct (list_strings (fun _ : unit => []) (Some true) None None None None
              sample_table) as [e|resp] eqn:E; [discriminate E|].
  exists resp. split; [reflexivity|].
  apply (list_strings_filters_applied (fun _ : unit => [])
           (Some true) None None None None sample_table resp E).
Defined.

(** X16 on the sample table: palindromes of at least 3 characters, then
    palindromes. *)
Lemma list_strings_fewer_filters_witness :
  ∃ resp,
    list_strings (fun _ : unit => []) (Some true) (Some 3) None None None
      sample_table = ret resp
    ∧ ∃ resp',
        list_strings (fun _ : unit => []) (Some true) None None None None
          sample_table = ret resp'
        ∧ data resp `sublist_of` data resp'.
Proof.
  destruct (list_strings (fun _ : unit => []) (Some true) (Some 3) None None
              None sample_table) as [e|resp] eqn:E; [discriminate E|].
  exists resp. split; [reflexivity|].
  apply (list_strings_fewer_filters (fun _ : unit => [])
           (Some true) (Some 3) None None None
           (Some true) None None None None sample_table resp);
    [by right|by left|by left|by left|by left|exact E].
Defined.

(** X17 on the sample table, at "xyz123". *)
Lemma nl_filter_outcome_witness :
  let q := lit "xyz123" in
  (¬ some_rule_matched (lower q)
   ∧ nl_filter (fun _ : unit => []) q sample_table
     = raise (HTTPException 400
                (lit "Unable to parse natural language query")))
  ∨ (∃ pre ds,
       longer_than_at pre (lower q) ds ∧ first_longer_than pre (lower q)
       ∧ 4300 < len ds
       ∧ nl_filter (fun _ : unit => []) q sample_table
         = raise (HTTPException 400 (int_limit_message (length ds))))
  ∨ (some_rule_matched (lower q) ∧ ¬ number_too_long (lower q)
     ∧ ∃ r, nl_filter (fun _ : unit => []) q sample_table = ret r).
Proof.
  intros q.
  apply (proj1 (nl_filter_outcome (fun _ : unit => []) q sample_table)).
Defined.

(** X18 on the sample table, at "Palindromes". *)
Lemma nl_filter_answer_witness :
  ∃ r,
    nl_filter (fun _ : unit => []) (lit "Palindromes") sample_table = ret r
    ∧ interpreted_original r = lit "Palindromes"
    ∧ filters_applied (nl_result r) = interpreted_parsed_filters r.
Proof.
  destruct (nl_filter (fun _ : unit => []) (lit "Palindromes") sample_table)
    as [e|r] eqn:E; [vm_compute in E; discriminate E|].
  exists r. split; [reflexivity|].
  destruct (nl_filter_answer (fun _ : unit => []) (lit "Palindromes")
              sample_table r E) as (H1 & _ & H3 & _).
  split; [exact H1|exact H3].
Defined.

Lemma sample_table_unique : keys_unique sample_table.
Proof.
  split; apply (bool_decide_unpack _); vm_compute; exact I.
Qed.

Lemma sample_table_genuine : rows_genuine (fun s => s) sample_table.
Proof. by repeat constructor. Qed.

(** X19 on the sample table, at the stored value "level". *)
Lemma create_string_outcome_witness :
  rows_genuine (fun s => s) sample_table
  ∧ create_string (fun _ : unit => []) (fun s => s) tt (lit "level")
      sample_table ≠ inl IntegrityError.
Proof.
  split; [exact sample_table_genuine|].
  apply (create_string_outcome (fun _ : unit => []) (fun s => s) tt
           (lit "level") sample_table sample_table_genuine).
Defined.

(** X20 on the empty table, at "abc". *)
Lemma create_string_twice_witness :
  ∃ db' resp,
    create_string (fun _ : unit => []) (fun s => s) tt (lit "abc") []
    = inr (db', resp)
    ∧ create_string (fun _ : unit => []) (fun s => s) tt (lit "abc") db'
      = inl (Raised (HTTPException 409
                       (lit "String already exists in the system"))).
Proof.
  destruct (create_string (fun _ : unit => []) (fun s => s) tt (lit "abc") [])
    as [e|[db' resp]] eqn:E; [discriminate E|].
  exists db', resp. split; [reflexivity|].
  apply (create_string_twice (fun _ : unit => []) (fun s => s) tt tt
           (lit "abc") [] db' resp E).
Defined.

(** X21 on the sample table, creating "abc" and deleting "level". *)
Lemma handlers_keep_table_witness :
  keys_unique sample_table ∧ rows_genuine (fun s => s) sample_table
  ∧ ∃ db', delete_string (lit "level") sample_table = ret db'
           ∧ keys_unique db' ∧ rows_genuine (fun s => s) db'.
Proof.
  split; [exact sample_table_unique|]. split; [exact sample_table_genuine|].
  destruct (delete_string (lit "level") sample_table) as [e|db'] eqn:E;
    [vm_compute in E; discriminate E|].
  exists db'. split; [reflexivity|].
  apply (proj2 (handlers_keep_table (fun _ : unit => []) (fun s => s) tt
                  (lit "abc") (lit "level") sample_table
                  sample_table_unique sample_table_genuine) db' E).
Defined.

(** X22 on the sample table, at "missing". *)
Lemma get_string_lookup_witness :
  keys_unique sample_table
  ∧ (∀ r, r ∈ sample_table →
          value_ r ≠ lit "missing" ∧ id_ r ≠ lit "missing")
  ∧ get_string (fun _ : unit => []) (lit "missing") sample_table
    = raise (HTTPException 404 (lit "String does not exist in the system")).
Proof.
  assert (∀ r, r ∈ sample_table →
               value_ r ≠ lit "missing" ∧ id_ r ≠ lit "missing") as H.
  { intros r. unfold sample_table. rewrite !elem_of_cons, elem_of_nil.
    intros [->|[->|[]]]; by split. }
  split; [exact sample_table_unique|]. split; [exact H|].
  apply (proj2 (proj2 (proj2 (get_string_lookup (fun _ : unit => [])
                                (lit "missing") sample_table
                                sample_table_unique))) H).
Defined.

(** X23 on the sample table, at "abc". *)
Lemma create_then_get_witness :
  rows_genuine (fun s => s) sample_table
  ∧ ∃ db' resp,
      create_string (fun _ : unit => []) (fun s => s) tt (lit "abc")
        sample_table = inr (db', resp)
      ∧ get_string (fun _ : unit => []) (lit "abc") db' = ret resp.
Proof.
  split; [exact sample_table_genuine|].
  destruct (create_string (fun _ : unit => []) (fun s => s) tt (lit "abc")
              sample_table) as [e|[db' resp]] eqn:E;
    [vm_compute in E; discriminate E|].
  exists db', resp. split; [reflexivity|].
  apply (create_then_get (fun _ : unit => []) (fun s => s) tt (lit "abc")
           sample_table db' resp sample_table_genuine E).
Defined.

(** X24 on the sample table, at "abc". *)
Lemma create_then_delete_witness :
  rows_genuine (fun s => s) sample_table
  ∧ ∃ db' resp,
      create_string (fun _ : unit => []) (fun s => s) tt (lit "abc")
        sample_table = inr (db', resp)
      ∧ delete_string (lit "abc") db' = ret sample_table.
Proof.
  split; [exact sample_table_genuine|].
  destruct (create_string (fun _ : unit => []) (fun s => s) tt (lit "abc")
              sample_table) as [e|[db' resp]] eqn:E;
    [vm_compute in E; discriminate E|].
  exists db', resp. split; [reflexivity|].
  apply (create_then_delete (fun _ : unit => []) (fun s => s) tt (lit "abc")
           sample_table db' resp sample_table_genuine E).
Defined.

(** X25 on the sample table, at "level". *)
Lemma delete_string_effect_witness :
  keys_unique sample_table
  ∧ ∃ db', delete_string (lit "level") sample_table = ret db'
           ∧ length sample_table = S (length db').
Proof.
  split; [exact sample_table_unique|].
  destruct (delete_string (lit "level") sample_table) as [e|db'] eqn:E;
    [vm_compute in E; discriminate E|].
  exists db'. split; [reflexivity|].
  destruct (proj1 (delete_string_effect (lit "level") sample_table
                     sample_table_unique) db' E) as (r & _ & _ & _ & _ & Hl).
  exact Hl.
Defined.

(** X26 at [GET /strings/abc]. *)
Lemma routes_shadow_nl_filter_witness :
  lit "abc" ≠ []
  ∧ Forall (fun c => not_slash c = true) (lit "abc")
  ∧ dispatch GET (lit "/strings/" ++ lit "abc")
    = Some (ep_get_string, Some (lit "abc")).
Proof.
  assert (lit "abc" ≠ []) as H1 by discriminate.
  assert (Forall (fun c => not_slash c = true) (lit "abc")) as H2
    by (by repeat constructor).
  split; [exact H1|]. split; [exact H2|].
  apply (proj1 routes_shadow_nl_filter (lit "abc") H1 H2).
Defined.
